(** * FCR command runner: device directory cache and service lifecycle

    A shallow embedding of [fbnet/command_runner/device_db.py] and of the
    shutdown and logging parts of [fbnet/command_runner/service.py], with
    the properties of the design document proved (or refuted) on it.

    Conventions.
    - Python objects are records; a Python [dict] keyed by strings is a
      [gmap string _].  The cache never mutates the device objects it
      stores, so an object is identified with the value of its fields:
      two names "point to the same object" when they are mapped to equal
      values.
    - A method of an object is a computation in the monad [M S], a state
      transformer that returns either a value or a raised exception.
      State changes made before a [raise] are kept, as in Python.
    - Calls that leave the module (the backend fetch, the logging module,
      the event loop) are recorded in the state, so that "no backend call
      is made" is a statement about the state. *)

From Stdlib Require Import Ascii ssreflect.
From stdpp Require Import gmap strings list fin_maps.

Set Default Proof Using "Type".
Set Warnings "-rewrite-rw".

(** ** Exceptions and the method monad *)

Inductive exn :=
  | KeyError (msg name : string)
  | ValueError (msg : string)
  | NotImplementedError (msg : string)
  | AsyncTimeoutError
  | CancelledError
  | BackendFailure (what : string).

Inductive result (A : Type) :=
  | Ok (a : A)
  | Raise (e : exn).
Arguments Ok {A} a.
Arguments Raise {A} e.

Definition is_ok {A} (r : result A) : bool :=
  match r with Ok _ => true | Raise _ => false end.

Definition M (S A : Type) : Type := S → result A * S.

Section monad.
Context {S : Type}.

Definition ret {A} (a : A) : M S A := λ s, (Ok a, s).

Definition bind {A B} (m : M S A) (k : A → M S B) : M S B :=
  λ s, match m s with
       | (Ok a, s') => k a s'
       | (Raise e, s') => (Raise e, s')
       end.

Definition raise {A} (e : exn) : M S A := λ s, (Raise e, s).

Definition gets {A} (f : S → A) : M S A := λ s, (Ok (f s), s).

Definition modify (f : S → S) : M S unit := λ s, (Ok tt, f s).

(** [for x in xs: body x] *)
Fixpoint for_each {A} (xs : list A) (body : A → M S unit) : M S unit :=
  match xs with
  | [] => ret tt
  | x :: xs' => bind (body x) (λ _, for_each xs' body)
  end.

(** [if c: body] without an [else] branch *)
Definition when (c : bool) (body : M S unit) : M S unit :=
  if c then body else ret tt.
End monad.

Notation "x <- m ;; k" := (bind m (λ x, k))
  (at level 100, m at next level, right associativity).
Notation "m ;;; k" := (bind m (λ _, k))
  (at level 100, right associativity).

(** ** device_db.py *)

Module DeviceDB.

(** The records a backend returns.  The cache reads [hostname] and
    [alias] only; [info] stands for all the other fields. *)
Record DeviceInfo := {
  hostname : string;
  alias : option string;
  info : nat
}.

#[global] Instance DeviceInfo_eq_dec : EqDecision DeviceInfo.
Proof. solve_decision. Defined.

(** The argument of [get]: only [device.hostname] is read. *)
Record Device := { dev_hostname : string }.

(** Truth value of [d.alias]: [None] and the empty string are false. *)
Definition truthy (a : option string) : bool :=
  match a with
  | None => false
  | Some s => negb (bool_decide (s = ""))
  end.

(** The name under which a true alias is stored. *)
Definition alias_key (a : option string) : string := default "" a.

Record BaseDeviceDB := {
  _data_valid : bool;
  _devices : gmap string DeviceInfo
}.

(** One call of [_fetch_device_data]. *)
Record FetchCall := {
  arg_name_filter : option string;
  arg_hostname : option string
}.

#[global] Instance FetchCall_eq_dec : EqDecision FetchCall.
Proof. solve_decision. Defined.

(** The object together with the calls it has made to its backend. *)
Record World := {
  self : BaseDeviceDB;
  backend_calls : list FetchCall
}.

(** What an overriding [_fetch_device_data] does on one call. *)
Definition Backend : Type :=
  option string → option string → result (list DeviceInfo).

(** [BaseDeviceDB._fetch_device_data] itself. *)
Definition abstract_backend : Backend :=
  λ _ _, Raise (NotImplementedError "Please implement this get host information").

(** [__init__] *)
Definition init : World :=
  {| self := {| _data_valid := false; _devices := ∅ |};
     backend_calls := [] |}.

Definition set_data_valid (b : bool) (w : World) : World :=
  {| self := {| _data_valid := b; _devices := _devices (self w) |};
     backend_calls := backend_calls w |}.

(** [self._devices[k] = d] *)
Definition setitem (k : string) (d : DeviceInfo) (w : World) : World :=
  {| self := {| _data_valid := _data_valid (self w);
                _devices := <[k := d]> (_devices (self w)) |};
     backend_calls := backend_calls w |}.

Definition record_call (c : FetchCall) (w : World) : World :=
  {| self := self w; backend_calls := backend_calls w ++ [c] |}.

(** [k in self._devices] *)
Definition contains (k : string) (w : World) : bool :=
  bool_decide (is_Some (_devices (self w) !! k)).

Section methods.
(** The subclass's override and the configured name filter. *)
Variable _fetch_device_data : Backend.
Variable DEVICE_NAME_FILTER : option string.

Definition call_fetch_device_data (name_filter hostname : option string)
  : M World (list DeviceInfo) :=
  λ w, (_fetch_device_data name_filter hostname,
        record_call {| arg_name_filter := name_filter;
                       arg_hostname := hostname |} w).

Definition _fetch_devices (name_filter hostname : option string)
  : M World unit :=
  devices <- call_fetch_device_data name_filter hostname ;;
  for_each devices (λ d,
    modify (setitem (DeviceDB.hostname d) d) ;;;
    when (truthy (alias d)) (modify (setitem (alias_key (alias d)) d))).

Definition run : M World unit :=
  _fetch_devices DEVICE_NAME_FILTER None ;;;
  modify (set_data_valid true).

Definition get (device : Device) (autofetch : bool) : M World DeviceInfo :=
  present <- gets (contains (dev_hostname device)) ;;
  when (negb present && autofetch)
       (_fetch_devices None (Some (dev_hostname device))) ;;;
  (* [if k in self._devices: return self._devices.get(k)] is one
     lookup: the branch is taken exactly when the lookup finds a
     value, and that value is returned. *)
  found <- gets (λ w, _devices (self w) !! dev_hostname device) ;;
  match found with
  | Some d => ret d
  | None => raise (KeyError "Device not found" (dev_hostname device))
  end.
End methods.

(** *** The operations of the cache, as seen from outside

    [run] is what the periodic task calls on every cycle; [get] is the
    lookup.  Each operation comes with the behaviour of the backend at
    the time it runs, so that a backend may answer differently from one
    operation to the next. *)
Inductive op :=
  | Run (DEVICE_NAME_FILTER : option string)
  | Get (device : Device) (autofetch : bool).

Definition exec (b : Backend) (o : op) : M World (option DeviceInfo) :=
  match o with
  | Run f => run b f ;;; ret None
  | Get dev autofetch => d <- get b dev autofetch ;; ret (Some d)
  end.

Definition step (b : Backend) (o : op) (w : World) : World :=
  snd (exec b o w).

Definition outcome (b : Backend) (o : op) (w : World)
  : result (option DeviceInfo) :=
  fst (exec b o w).

(** A history: operations in the order they run, each with the backend
    of its time. *)
Definition run_ops (history : list (Backend * op)) (w : World) : World :=
  foldl (λ w' bo, step bo.1 bo.2 w') w history.

Inductive reachable : World → Prop :=
  | reachable_init : reachable init
  | reachable_step b o w : reachable w → reachable (step b o w).

(** The backend call an operation makes, if it makes one. *)
Definition query (o : op) (w : World) : option FetchCall :=
  match o with
  | Run f => Some {| arg_name_filter := f; arg_hostname := None |}
  | Get dev autofetch =>
      if negb (contains (dev_hostname dev) w) && autofetch
      then Some {| arg_name_filter := None;
                   arg_hostname := Some (dev_hostname dev) |}
      else None
  end.

(** *** The merge loop as a function on the index *)

Definition merge_one (m : gmap string DeviceInfo) (d : DeviceInfo)
  : gmap string DeviceInfo :=
  let m1 := <[hostname d := d]> m in
  if truthy (alias d) then <[alias_key (alias d) := d]> m1 else m1.

Definition merge (ds : list DeviceInfo) (m : gmap string DeviceInfo)
  : gmap string DeviceInfo :=
  foldl merge_one m ds.

Definition with_devices (m : gmap string DeviceInfo) (w : World) : World :=
  {| self := {| _data_valid := _data_valid (self w); _devices := m |};
     backend_calls := backend_calls w |}.

(** The names an entity is stored under. *)
Definition names (d : DeviceInfo) : list string :=
  hostname d :: (if truthy (alias d) then [alias_key (alias d)] else []).

Definition writes (k : string) (d : DeviceInfo) : bool :=
  bool_decide (k ∈ names d).

(** The last entity of a fetched sequence that is stored under [k]. *)
Fixpoint last_writer (k : string) (ds : list DeviceInfo)
  : option DeviceInfo :=
  match ds with
  | [] => None
  | d :: ds' =>
      match last_writer k ds' with
      | Some d' => Some d'
      | None => if writes k d then Some d else None
      end
  end.

(** The backend call with the given arguments. *)
Definition the_call (name_filter hostname : option string) : FetchCall :=
  {| arg_name_filter := name_filter; arg_hostname := hostname |}.

(** What the last lines of [get] return for a given index. *)
Definition answer (name : string) (m : gmap string DeviceInfo)
  : result DeviceInfo :=
  match m !! name with
  | Some d => Ok d
  | None => Raise (KeyError "Device not found" name)
  end.

(** The invariant of the design document: every stored entity is found
    under its primary name and under its alias, as that same entity. *)
Definition own_names_current (m : gmap string DeviceInfo) : Prop :=
  ∀ k d, m !! k = Some d → ∀ n, n ∈ names d → m !! n = Some d.

(** What does hold of every index: an entity is only stored under names
    of its own. *)
Definition keyed_by_own_names (m : gmap string DeviceInfo) : Prop :=
  ∀ k d, m !! k = Some d → k ∈ names d.

(** What survives of the invariant in every index: the names of a stored
    entity are themselves mapped, to that entity or to a later one. *)
Definition own_names_mapped (m : gmap string DeviceInfo) : Prop :=
  ∀ k d, m !! k = Some d → ∀ n, n ∈ names d → is_Some (m !! n).

(** An entity bears a name when it is its primary name or its non-empty
    alias. *)
Definition bears (d : DeviceInfo) (name : string) : Prop :=
  hostname d = name ∨ (alias d = Some name ∧ name ≠ "").

(** *** Sample backends

    A directory in which the entity [core1] changes its alias from
    [c1-old] to [c1-new] between two refreshes, and a backend that
    answers a targeted fetch with the canonical record of another
    name. *)
Definition core1_then : DeviceInfo :=
  {| hostname := "core1"; alias := Some "c1-old"; info := 1 |}.
Definition core1_now : DeviceInfo :=
  {| hostname := "core1"; alias := Some "c1-new"; info := 2 |}.
Definition directory_then : Backend := λ _ _, Ok [core1_then].
Definition directory_now : Backend := λ _ _, Ok [core1_now].
Definition stale_world : World :=
  step directory_now (Run None) (step directory_then (Run None) init).

Definition r1 : DeviceInfo :=
  {| hostname := "R1"; alias := None; info := 7 |}.
Definition r1_canonical : DeviceInfo :=
  {| hostname := "r1.example.net"; alias := None; info := 7 |}.
Definition serves_r1 : Backend := λ _ _, Ok [r1].
Definition serves_canonical : Backend := λ _ _, Ok [r1_canonical].
Definition failing : Backend := λ _ _, Raise (BackendFailure "unreachable").

(** The point-fetch property of the design document, read literally:
    whatever single entity the targeted fetch of [R1] returns, both
    lookups succeed with it. *)
Definition point_fetch_merge_as_stated (b : Backend) (d : DeviceInfo) : Prop :=
  b None (Some "R1") = Ok [d] →
  let first := get b {| dev_hostname := "R1" |} true init in
  fst first = Ok d ∧
  fst (get b {| dev_hostname := "R1" |} false (snd first)) = Ok d.

End DeviceDB.

(** ** service.py *)

Module Service.

(** *** Python values and the [logging] module

    [_init_logging] reads an attribute of Python's [logging] module by
    name.  The module is given by its attribute table.  The attributes
    whose names have no lower-case letter are listed: the eight level
    constants and two that are not integers.  All the others (functions,
    classes, flags such as [raiseExceptions], which is a boolean and so
    passes [isinstance(_, int)]) have a lower-case letter in their name;
    they are left open, as [logging_others]. *)
Inductive pyobj :=
  | PyInt (n : Z)
  | PyBool (b : bool)
  | PyStr (s : string)
  | PyDict
  | PyFunction
  | PyObject.

(** [isinstance(v, int)]; [bool] is a subclass of [int]. *)
Definition isinstance_int (v : option pyobj) : bool :=
  match v with
  | Some (PyInt _) | Some (PyBool _) => true
  | _ => false
  end.

Definition logging_constants : list (string * pyobj) :=
  [ ("CRITICAL", PyInt 50); ("FATAL", PyInt 50); ("ERROR", PyInt 40);
    ("WARNING", PyInt 30); ("WARN", PyInt 30); ("INFO", PyInt 20);
    ("DEBUG", PyInt 10); ("NOTSET", PyInt 0);
    ("BASIC_FORMAT", PyStr "%(levelname)s:%(name)s:%(message)s");
    ("_STYLES", PyDict) ]%Z.

(** Some of the other attributes, for the examples. *)
Definition logging_sample_others : list (string * pyobj) :=
  [ ("raiseExceptions", PyBool true); ("logThreads", PyBool true);
    ("logMultiprocessing", PyBool true); ("logProcesses", PyBool true);
    ("critical", PyFunction); ("fatal", PyFunction); ("error", PyFunction);
    ("warning", PyFunction); ("warn", PyFunction); ("info", PyFunction);
    ("debug", PyFunction); ("log", PyFunction); ("root", PyObject) ].

(** [getattr(module, name, None)] *)
Fixpoint getattr (module : list (string * pyobj)) (name : string)
  : option pyobj :=
  match module with
  | [] => None
  | (k, v) :: rest => if bool_decide (k = name) then Some v
                      else getattr rest name
  end.
Arguments getattr : simpl never.

(** [str.upper] on ASCII strings: the letters [a] to [z] become [A] to
    [Z], every other ASCII character is kept.  On strings with other
    characters Python applies the case mappings of Unicode, which this
    function does not have; what is stated of it is stated of ASCII
    strings, see [is_ascii]. *)
Definition upper_ascii (c : ascii) : ascii :=
  let n := nat_of_ascii c in
  if (97 <=? n) && (n <=? 122) then ascii_of_nat (n - 32) else c.

Fixpoint upper (s : string) : string :=
  match s with
  | EmptyString => EmptyString
  | String c s' => String (upper_ascii c) (upper s')
  end.

Definition is_lower (c : ascii) : bool :=
  let n := nat_of_ascii c in (97 <=? n) && (n <=? 122).

Fixpoint has_lower (s : string) : bool :=
  match s with
  | EmptyString => false
  | String c s' => is_lower c || has_lower s'
  end.

(** The string is made of ASCII characters only. *)
Fixpoint is_ascii (s : string) : bool :=
  match s with
  | EmptyString => true
  | String c s' => (nat_of_ascii c <? 128) && is_ascii s'
  end.

(** Every attribute of the list has a lower-case letter in its name. *)
Definition lower_case_names (attrs : list (string * pyobj)) : Prop :=
  Forall (λ kv, has_lower kv.1 = true) attrs.

(** The level names the [logging] module knows. *)
Definition level_names : list string :=
  ["CRITICAL"; "FATAL"; "ERROR"; "WARNING"; "WARN"; "INFO"; "DEBUG";
   "NOTSET"].

(** A configured name, of ASCII characters, is recognized when, case
    aside, it is one of the level names. *)
Definition recognized (name : string) : Prop := upper name ∈ level_names.

(** *** The event loop and the service object *)

Record Config := {
  max_default_executor_threads : Z;
  exit_max_wait : Z;
  log_level : string
}.

Inductive Coro :=
  | clean_shutdown_coro
  | other_coro (id : nat).

Inductive TaskState := Pending | CancelRequested | Done.

Record Task := { coro : Coro; task_state : TaskState }.

Inductive Signal := SIGINT | SIGTERM.

Inductive Handler := call_shutdown.

Record Executor := { max_workers : Z }.

Record Loop := {
  tasks : list Task;
  stopping : bool;
  default_executor : option Executor;
  signal_handlers : list (Signal * Handler)
}.

(** Calls into the logging module and into the session registry. *)
Inductive Effect :=
  | basicConfig (level : option pyobj)
  | logger_info (msg : string)
  | logger_error (msg : string)
  | wait_sessions (who : string) (timeout : Z).

(** What a method of the service can touch besides the object. *)
Record Env := { loop : Loop; effects : list Effect }.

Record FcrServiceBase := {
  _app_name : string;
  _config : Config;
  _shutting_down : bool
}.

Record World := { self : FcrServiceBase; env : Env }.

#[global] Instance Coro_eq_dec : EqDecision Coro.
Proof. solve_decision. Defined.
#[global] Instance TaskState_eq_dec : EqDecision TaskState.
Proof. solve_decision. Defined.
#[global] Instance Task_eq_dec : EqDecision Task.
Proof. solve_decision. Defined.

(** [Task.cancel()]: a task that is done is left alone. *)
Definition cancel (t : Task) : Task :=
  match task_state t with
  | Done => t
  | _ => {| coro := coro t; task_state := CancelRequested |}
  end.

Definition with_loop (f : Loop → Loop) (e : Env) : Env :=
  {| loop := f (loop e); effects := effects e |}.

Definition emit (x : Effect) (e : Env) : Env :=
  {| loop := loop e; effects := effects e ++ [x] |}.

Definition in_env (f : Env → Env) (w : World) : World :=
  {| self := self w; env := f (env w) |}.

(** [for t in Task.all_tasks(loop): t.cancel()] *)
Definition cancel_all (l : Loop) : Loop :=
  {| tasks := map cancel (tasks l); stopping := stopping l;
     default_executor := default_executor l;
     signal_handlers := signal_handlers l |}.

(** [loop.stop()] *)
Definition stop (l : Loop) : Loop :=
  {| tasks := tasks l; stopping := true;
     default_executor := default_executor l;
     signal_handlers := signal_handlers l |}.

(** [asyncio.ensure_future(c, loop=loop)] *)
Definition ensure_future (c : Coro) (l : Loop) : Loop :=
  {| tasks := tasks l ++ [{| coro := c; task_state := Pending |}];
     stopping := stopping l;
     default_executor := default_executor l;
     signal_handlers := signal_handlers l |}.

Definition set_default_executor (x : Executor) (l : Loop) : Loop :=
  {| tasks := tasks l; stopping := stopping l;
     default_executor := Some x;
     signal_handlers := signal_handlers l |}.

Definition add_signal_handler (s : Signal) (h : Handler) (l : Loop) : Loop :=
  {| tasks := tasks l; stopping := stopping l;
     default_executor := default_executor l;
     signal_handlers := signal_handlers l ++ [(s, h)] |}.

Definition set_shutting_down (b : bool) (w : World) : World :=
  {| self := {| _app_name := _app_name (self w);
                _config := _config (self w);
                _shutting_down := b |};
     env := env w |}.

(** [try: body finally: fin] *)
Definition try_finally {S A} (body : M S A) (fin : M S unit) : M S A :=
  λ s, let (r, s1) := body s in
       match fin s1 with
       | (Ok _, s2) => (r, s2)
       | (Raise e, s2) => (Raise e, s2)
       end.

(** [try: body except E: handler], [catches] telling which exceptions
    are instances of [E]. *)
Definition try_except {S A} (body : M S A) (catches : exn → bool)
    (handler : M S A) : M S A :=
  λ s, match body s with
       | (Raise e, s1) => if catches e then handler s1 else (Raise e, s1)
       | done => done
       end.

Definition is_timeout (e : exn) : bool :=
  match e with AsyncTimeoutError => true | _ => false end.

Section init.
(** The attributes of [logging] that are not listed above, and
    [ThreadPoolExecutor(max_workers=n)], a constructor of the standard
    library that may itself refuse its argument. *)
Variable logging_others : list (string * pyobj).
Variable ThreadPoolExecutor : Z → result Executor.

Definition logging : list (string * pyobj) :=
  logging_constants ++ logging_others.

(** [_init_logging], given [self.config]. *)
Definition _init_logging (config : Config) : M Env unit :=
  let level := getattr logging (upper (log_level config)) in
  if negb (isinstance_int level)
  then raise (ValueError ("Invalid log level: " +:+ log_level config))
  else modify (emit (basicConfig level)).

Definition __init__ (app_name : string) (config : Config)
  : M Env FcrServiceBase :=
  executor <- (λ e, (ThreadPoolExecutor
                       (max_default_executor_threads config), e)) ;;
  modify (with_loop (set_default_executor executor)) ;;;
  _init_logging config ;;;
  modify (with_loop (add_signal_handler SIGINT call_shutdown)) ;;;
  modify (with_loop (add_signal_handler SIGTERM call_shutdown)) ;;;
  ret {| _app_name := app_name; _config := config;
         _shutting_down := false |}.
End init.

Definition terminate : M World unit :=
  modify (in_env (emit (logger_info "Terminating"))) ;;;
  modify (in_env (with_loop cancel_all)) ;;;
  modify (in_env (with_loop stop)).

Section clean_shutdown.
(** How [await asyncio.wait_for(...)] ends: normally when the sessions
    have drained, with [AsyncTimeoutError] when [exit_max_wait] is
    exceeded, with another exception otherwise (a cancellation, say);
    and what the rest of the program did to the state while the
    coroutine was suspended. *)
Variable wait_outcome : result unit.
Variable meanwhile : World → World.

Definition await_wait_for (timeout : Z) : M World unit :=
  λ w, (wait_outcome,
        meanwhile (in_env (emit (wait_sessions "Shutdown" timeout)) w)).

Definition _clean_shutdown : M World unit :=
  try_finally
    (try_except
       (timeout <- gets (λ w, exit_max_wait (_config (self w))) ;;
        await_wait_for timeout)
       is_timeout
       (modify (in_env (emit (logger_error
          "Timeout waiting for sessions, shutting down anyway")))))
    terminate.
End clean_shutdown.

Definition shutdown : M World unit :=
  shutting_down <- gets (λ w, _shutting_down (self w)) ;;
  if negb shutting_down
  then modify (set_shutting_down true) ;;;
       modify (in_env (with_loop (ensure_future clean_shutdown_coro)))
  else terminate.

Definition all_cancelled (l : Loop) : Prop :=
  ∀ t, t ∈ tasks l → task_state t ≠ Pending.

(** The state in which [await asyncio.wait_for(...)] resumes. *)
Definition resumed (meanwhile : World → World) (w : World) : World :=
  meanwhile (in_env (emit (wait_sessions "Shutdown"
                             (exit_max_wait (_config (self w))))) w).

Definition timeout_logged (w : World) : World :=
  in_env (emit (logger_error
    "Timeout waiting for sessions, shutting down anyway")) w.

(** *** A sample service: two sessions in flight *)
Definition sample_config : Config :=
  {| max_default_executor_threads := 4; exit_max_wait := 300;
     log_level := "info" |}.

Definition sample_env : Env :=
  {| loop := {| tasks := [ {| coro := other_coro 1; task_state := Pending |};
                           {| coro := other_coro 2; task_state := Done |} ];
                stopping := false;
                default_executor := None;
                signal_handlers := [] |};
     effects := [] |}.

Definition sample_world : World :=
  {| self := {| _app_name := "fcr"; _config := sample_config;
                _shutting_down := false |};
     env := sample_env |}.

Definition sample_executor : Z → result Executor :=
  λ n, if bool_decide (0 < n)%Z then Ok {| max_workers := n |}
       else Raise (ValueError "max_workers must be greater than 0").

End Service.

(** ** device_db.py: waiting for the data *)

Module Waiting.
Import DeviceDB.

(** The cache together with the messages given to [self.logger.info]. *)
Record Logged := { cache : World; info_log : list string }.

Definition info (msg : string) (s : Logged) : Logged :=
  {| cache := cache s; info_log := info_log s ++ [msg] |}.

Definition in_cache (f : World → World) (s : Logged) : Logged :=
  {| cache := f (cache s); info_log := info_log s |}.

Section wait_for_data.
(** [self.wait()], a method of the periodic-task base class: whatever
    happens to the cache and to the log while the caller is suspended,
    and however the suspension ends. *)
Variable wait : M Logged unit.

(** [wait_for_data].  The [while] loop is bounded by [fuel], the number
    of times the loop body may run; [None] means that the bound was
    reached with the caller still waiting. *)
Fixpoint wait_for_data (fuel : nat) (s : Logged)
  : option (result unit * Logged) :=
  if _data_valid (self (cache s))
  then Some (Ok tt, info "Device data valid" s)
  else match fuel with
       | 0 => None
       | S fuel' =>
           match wait (info "Waiting for data" s) with
           | (Ok _, s') => wait_for_data fuel' s'
           | (Raise e, s') => Some (Raise e, s')
           end
       end.

(** The state after the loop body has run [n] times. *)
Fixpoint after_waits (n : nat) (s : Logged) : Logged :=
  match n with
  | 0 => s
  | S n' => after_waits n' (snd (wait (info "Waiting for data" s)))
  end.

(** The first [n] suspensions all end normally. *)
Fixpoint waits_return (n : nat) (s : Logged) : Prop :=
  match n with
  | 0 => True
  | S n' =>
      is_ok (fst (wait (info "Waiting for data" s))) = true ∧
      waits_return n' (snd (wait (info "Waiting for data" s)))
  end.
End wait_for_data.

(** A suspension during which the periodic task runs one bulk refresh,
    ignoring its error as the task loop does. *)
Definition refresh_meanwhile (b : Backend) (f : option string)
  : M Logged unit :=
  modify (in_cache (step b (Run f))).

Definition fresh : Logged := {| cache := init; info_log := [] |}.

End Waiting.

(** ** service.py: the life of the service *)

Module Lifecycle.
Import Service.

#[global] Instance Signal_eq_dec : EqDecision Signal.
Proof. solve_decision. Defined.

(** *** Calls of the shutdown methods, with the loop running in between

    Between two calls the loop runs: tasks finish and leave it, others
    are started, messages are logged, the loop may stop.  All of this is
    a change of the environment; the fields of the service object are
    assigned by [__init__] and [shutdown] only.  The drain coroutine
    too is suspended while it waits, and the loop runs meanwhile.  A
    signal that arrives during that wait finds the flag set, by the
    [shutdown] that scheduled the drain, so that its [shutdown] is a
    [terminate]: a change of the environment as well. *)

Inductive request :=
  | Shutdown
  | Terminate
  | Drain (wait_outcome : result unit) (meanwhile : Env → Env)
  | Progress (others : Env → Env).

Definition serve (r : request) : M World unit :=
  match r with
  | Shutdown => shutdown
  | Terminate => terminate
  | Drain wait_outcome meanwhile =>
      _clean_shutdown wait_outcome (in_env meanwhile)
  | Progress others => modify (in_env others)
  end.

Definition run_requests (history : list request) (w : World) : World :=
  foldl (λ w' r, snd (serve r w')) w history.

(** *** Names that differ by the case of their letters *)

(** The same character, or an upper-case letter and its lower-case
    form. *)
Definition same_letter (a b : ascii) : bool :=
  let x := nat_of_ascii a in
  let y := nat_of_ascii b in
  (x =? y)
  || ((65 <=? x) && (x <=? 90) && (y =? x + 32))
  || ((65 <=? y) && (y <=? 90) && (x =? y + 32)).

Fixpoint same_name (s t : string) : bool :=
  match s, t with
  | EmptyString, EmptyString => true
  | String a s', String b t' => same_letter a b && same_name s' t'
  | _, _ => false
  end.

(** *** Signals *)

(** The handler a signal has: the one registered last. *)
Fixpoint handler_for (sig : Signal) (handlers : list (Signal * Handler))
  : option Handler :=
  match handlers with
  | [] => None
  | (s, h) :: rest =>
      match handler_for sig rest with
      | Some h' => Some h'
      | None => if bool_decide (s = sig) then Some h else None
      end
  end.

(** The loop receives a signal; [None] when it has no handler for it. *)
Definition deliver (sig : Signal) (w : World)
  : option (result unit * World) :=
  match handler_for sig (signal_handlers (loop (env w))) with
  | Some call_shutdown => Some (shutdown w)
  | None => None
  end.

(** The service object of a construction that succeeded, with its
    environment. *)
Definition constructed (started : result FcrServiceBase * Env)
  : option World :=
  match started with
  | (Ok svc, e) => Some {| self := svc; env := e |}
  | (Raise _, _) => None
  end.

(** *** [start] *)

(** [loop.close()] is not part of [Loop]; it is kept beside the world. *)
Record Host := { world : World; loop_closed : bool }.

Definition in_world (f : World → World) (h : Host) : Host :=
  {| world := f (world h); loop_closed := loop_closed h |}.

Definition close (h : Host) : Host :=
  {| world := world h; loop_closed := true |}.

Section start.
(** How [run_forever()] and [run_until_complete(gather(...))] end, and
    what the tasks of the loop did to the state while each ran. *)
Variable run_forever_outcome : result unit.
Variable while_running : World → World.
Variable gather_outcome : result unit.
Variable while_gathering : World → World.

Definition run_forever : M Host unit :=
  λ h, (run_forever_outcome, in_world while_running h).

Definition run_until_complete_gather : M Host unit :=
  λ h, (gather_outcome, in_world while_gathering h).

Definition start : M Host unit :=
  try_finally run_forever
    (modify (in_world (in_env (with_loop cancel_all))) ;;;
     run_until_complete_gather ;;;
     modify close).
End start.

Definition sample_host : Host :=
  {| world := sample_world; loop_closed := false |}.

End Lifecycle.

(** * Properties of the device directory cache *)

Module DeviceDBFacts.
Import DeviceDB.

Implicit Types (w : World) (m : gmap string DeviceInfo) (d : DeviceInfo)
  (ds : list DeviceInfo) (k name : string) (b : Backend) (o : op).

(** ** The methods in closed form *)

Lemma world_eta w :
  {| self := {| _data_valid := _data_valid (self w);
                _devices := _devices (self w) |};
     backend_calls := backend_calls w |} = w.
Proof. by destruct w as [[] ?]. Qed.

Lemma with_devices_id w : with_devices (_devices (self w)) w = w.
Proof. apply world_eta. Qed.

Lemma merge_loop ds w :
  for_each ds (λ d,
    modify (setitem (hostname d) d) ;;;
    when (truthy (alias d)) (modify (setitem (alias_key (alias d)) d))) w
  = (Ok tt, with_devices (merge ds (_devices (self w))) w).
Proof.
  revert w. induction ds as [|d ds IH]; intros w; simpl.
  - by rewrite /ret with_devices_id.
  - rewrite /bind /modify /= /merge_one.
    destruct (truthy (alias d)); simpl; by rewrite IH.
Qed.

Lemma _fetch_devices_eq b name_filter hostname w :
  _fetch_devices b name_filter hostname w =
    match b name_filter hostname with
    | Ok ds =>
        (Ok tt, with_devices (merge ds (_devices (self w)))
                  (record_call (the_call name_filter hostname) w))
    | Raise e => (Raise e, record_call (the_call name_filter hostname) w)
    end.
Proof.
  rewrite /_fetch_devices /bind /call_fetch_device_data.
  destruct (b name_filter hostname) as [ds|e]; [|done].
  by rewrite merge_loop.
Qed.

Lemma run_eq b f w :
  run b f w =
    match b f None with
    | Ok ds =>
        (Ok tt, set_data_valid true
                  (with_devices (merge ds (_devices (self w)))
                     (record_call (the_call f None) w)))
    | Raise e => (Raise e, record_call (the_call f None) w)
    end.
Proof.
  rewrite /run /bind _fetch_devices_eq.
  by destruct (b f None).
Qed.

Lemma get_hit b name autofetch w d :
  _devices (self w) !! name = Some d →
  get b {| dev_hostname := name |} autofetch w = (Ok d, w).
Proof.
  intros Hd. rewrite /get /bind /gets /contains /= Hd.
  rewrite bool_decide_eq_true_2 //=. by rewrite Hd.
Qed.

Lemma get_miss_no_autofetch b name w :
  _devices (self w) !! name = None →
  get b {| dev_hostname := name |} false w
  = (Raise (KeyError "Device not found" name), w).
Proof.
  intros Hd. rewrite /get /bind /gets /contains /= Hd.
  rewrite bool_decide_eq_false_2 /=; [apply is_Some_None|].
  by rewrite Hd.
Qed.

Lemma get_miss_autofetch b name w :
  _devices (self w) !! name = None →
  get b {| dev_hostname := name |} true w =
    match b None (Some name) with
    | Ok ds =>
        let w' := with_devices (merge ds (_devices (self w)))
                    (record_call (the_call None (Some name)) w) in
        (answer name (_devices (self w')), w')
    | Raise e => (Raise e, record_call (the_call None (Some name)) w)
    end.
Proof.
  intros Hd. rewrite /get /bind /gets /contains /= Hd.
  rewrite bool_decide_eq_false_2 /=; [apply is_Some_None|].
  rewrite _fetch_devices_eq.
  destruct (b None (Some name)) as [ds|e]; [|done].
  rewrite /answer /=. by destruct (merge ds _ !! name).
Qed.

(** ** The merge, name by name *)

Lemma merge_one_lookup m d k :
  merge_one m d !! k = if writes k d then Some d else m !! k.
Proof.
  rewrite /merge_one /writes /names.
  destruct (truthy (alias d)).
  - destruct (decide (k = alias_key (alias d))) as [->|Hne1].
    + rewrite lookup_insert_eq bool_decide_eq_true_2 //. set_solver.
    + rewrite lookup_insert_ne //.
      destruct (decide (k = hostname d)) as [->|Hne2].
      * rewrite lookup_insert_eq bool_decide_eq_true_2 //. set_solver.
      * rewrite lookup_insert_ne // bool_decide_eq_false_2 //. set_solver.
  - destruct (decide (k = hostname d)) as [->|Hne2].
    + rewrite lookup_insert_eq bool_decide_eq_true_2 //. set_solver.
    + rewrite lookup_insert_ne // bool_decide_eq_false_2 //. set_solver.
Qed.

Lemma merge_lookup ds m k :
  merge ds m !! k =
    match last_writer k ds with
    | Some d => Some d
    | None => m !! k
    end.
Proof.
  revert m. induction ds as [|d ds IH]; intros m; [done|].
  rewrite /merge /= -/(merge ds (merge_one m d)) IH.
  destruct (last_writer k ds); [done|].
  rewrite merge_one_lookup. by destruct (writes k d).
Qed.

Lemma last_writer_Some k ds d :
  last_writer k ds = Some d → d ∈ ds ∧ k ∈ names d.
Proof.
  induction ds as [|d' ds IH]; [done|]. simpl.
  destruct (last_writer k ds) as [d''|].
  - intros [= ->]. destruct IH as [? ?]; [done|]. split; [set_solver|done].
  - rewrite /writes. case_bool_decide; [|done].
    intros [= ->]. split; [set_solver|done].
Qed.

Lemma last_writer_None k ds :
  last_writer k ds = None ↔ ∀ d, d ∈ ds → k ∉ names d.
Proof.
  induction ds as [|d' ds IH]; simpl.
  - split; [|done]. intros _ d Hd. by apply elem_of_nil in Hd.
  - destruct (last_writer k ds) as [d''|] eqn:Hl.
    + split; [done|]. intros Hall.
      apply last_writer_Some in Hl as [Hin Hk].
      exfalso. apply (Hall d''); [set_solver|done].
    + rewrite /writes. case_bool_decide as Hk.
      * split; [done|]. intros Hall. exfalso. apply (Hall d'); [set_solver|done].
      * split; [|done]. intros _ d [->|Hd]%elem_of_cons; [done|].
        by apply IH.
Qed.

Lemma merge_preserves_names ds m k :
  is_Some (m !! k) → is_Some (merge ds m !! k).
Proof.
  intros Hk. rewrite merge_lookup. by destruct (last_writer k ds).
Qed.

Lemma merge_dom ds m : dom m ⊆ dom (merge ds m).
Proof.
  intros k. rewrite !elem_of_dom. apply merge_preserves_names.
Qed.

(** ** One operation, seen on the two fields of the object *)

Lemma step_devices b o w :
  _devices (self (step b o w)) =
    match query o w with
    | Some c =>
        match b (arg_name_filter c) (arg_hostname c) with
        | Ok ds => merge ds (_devices (self w))
        | Raise _ => _devices (self w)
        end
    | None => _devices (self w)
    end.
Proof.
  destruct o as [f|[name] autofetch]; rewrite /step /exec /bind /=.
  - rewrite run_eq. by destruct (b f None).
  - rewrite /contains /=.
    destruct (_devices (self w) !! name) as [d|] eqn:Hd.
    + rewrite bool_decide_eq_true_2 //= (get_hit _ _ _ _ d) //.
    + rewrite bool_decide_eq_false_2 /=; [apply is_Some_None|].
      destruct autofetch; simpl.
      * rewrite get_miss_autofetch //.
        destruct (b None (Some name)) as [ds|e]; [|done].
        simpl. by destruct (answer name _).
      * by rewrite get_miss_no_autofetch.
Qed.

Lemma step_data_valid b o w :
  _data_valid (self (step b o w)) =
    match o with
    | Run f => if is_ok (b f None) then true else _data_valid (self w)
    | Get _ _ => _data_valid (self w)
    end.
Proof.
  destruct o as [f|[name] autofetch]; rewrite /step /exec /bind /=.
  - rewrite run_eq. by destruct (b f None).
  - destruct (_devices (self w) !! name) as [d|] eqn:Hd.
    + by rewrite (get_hit _ _ _ _ d).
    + destruct autofetch.
      * rewrite get_miss_autofetch //.
        destruct (b None (Some name)) as [ds|e]; [|done].
        simpl. by destruct (answer name _).
      * by rewrite get_miss_no_autofetch.
Qed.

Lemma outcome_run b f w :
  outcome b (Run f) w =
    match b f None with Ok _ => Ok None | Raise e => Raise e end.
Proof.
  rewrite /outcome /exec /bind run_eq. by destruct (b f None).
Qed.

Lemma elem_of_names d name : name ∈ names d ↔ bears d name.
Proof.
  rewrite /names /bears /truthy /alias_key.
  destruct (alias d) as [a|]; simpl.
  - case_bool_decide as Ha; simpl.
    + subst a. set_solver.
    + rewrite elem_of_cons list_elem_of_singleton.
      split; (intros [?|Hn]; [by left|right]); [by subst|].
      by destruct Hn as [[= ->] _].
  - rewrite list_elem_of_singleton. split; [by left|].
    by intros [?|[? _]].
Qed.

(** ** The lookup *)

(** C1. [get] looks the name up in the index first and answers from it
    without a backend call when it is there.  When the name is absent
    and [autofetch] is false, it raises the not-found error carrying the
    name and leaves the object and the list of backend calls as they
    were.  When the name is absent and [autofetch] is true, it makes
    exactly one backend call, for that name and with no filter; if the
    call returns, the index becomes what a bulk refresh receiving the
    same entities would have made of it, and the answer is the retried
    lookup: the entity now found under the name, or the not-found error
    carrying the name. *)
Theorem get_lookup_fetch_retry b name autofetch w :
  let r := get b {| dev_hostname := name |} autofetch w in
  (∀ d, _devices (self w) !! name = Some d → r = (Ok d, w)) ∧
  (_devices (self w) !! name = None → autofetch = false →
     r = (Raise (KeyError "Device not found" name), w)) ∧
  (_devices (self w) !! name = None → autofetch = true →
     backend_calls (snd r) = backend_calls w ++ [the_call None (Some name)] ∧
     ∀ ds, b None (Some name) = Ok ds →
       (∀ b' f, b' f None = Ok ds →
          _devices (self (snd r)) = _devices (self (snd (run b' f w)))) ∧
       _data_valid (self (snd r)) = _data_valid (self w) ∧
       fst r = match _devices (self (snd r)) !! name with
               | Some d => Ok d
               | None => Raise (KeyError "Device not found" name)
               end).
Proof.
  intros r. subst r. split; [|split].
  - intros d Hd. by apply get_hit.
  - intros Hd ->. by apply get_miss_no_autofetch.
  - intros Hd ->. rewrite get_miss_autofetch //.
    destruct (b None (Some name)) as [ds|e]; simpl.
    + split; [done|].
      intros ? [= <-]. split; [|done].
      intros b' f Hb'. by rewrite run_eq Hb'.
    + split; [done|]. by intros ds [=].
Qed.

Lemma get_lookup_fetch_retry_witness :
  fst (get serves_r1 {| dev_hostname := "R1" |} true init) = Ok r1 ∧
  get failing {| dev_hostname := "unknown" |} false init
  = (Raise (KeyError "Device not found" "unknown"), init).
Proof.
  split.
  - destruct (get_lookup_fetch_retry serves_r1 "R1" true init)
      as (_ & _ & Hfetch).
    destruct (Hfetch eq_refl eq_refl) as [_ Hds].
    destruct (Hds [r1] eq_refl) as (_ & _ & ->).
    vm_compute. reflexivity.
  - destruct (get_lookup_fetch_retry failing "unknown" false init)
      as (_ & Hmiss & _).
    exact (Hmiss eq_refl eq_refl).
Defined.

(** ** Readiness *)

Lemma step_keeps_data_valid b o w :
  _data_valid (self w) = true → _data_valid (self (step b o w)) = true.
Proof.
  rewrite step_data_valid. intros Hv.
  destruct o as [f|]; [|done]. by destruct (is_ok _).
Qed.

Lemma run_ops_keeps_data_valid history w :
  _data_valid (self w) = true → _data_valid (self (run_ops history w)) = true.
Proof.
  revert w. induction history as [|[b o] history IH]; intros w Hv; [done|].
  apply IH. by apply step_keeps_data_valid.
Qed.

(** C2. The readiness flag is false at construction.  An operation never
    takes it from true to false, whatever the backend does, and so no
    history of later operations does; it goes from false to true only in
    a bulk refresh that completes without error; a bulk refresh that
    completes sets it, and one that raises leaves it as it was. *)
Theorem data_valid_monotone b o w :
  _data_valid (self init) = false ∧
  (_data_valid (self w) = true → _data_valid (self (step b o w)) = true) ∧
  (_data_valid (self w) = true →
     ∀ history, _data_valid (self (run_ops history w)) = true) ∧
  (_data_valid (self w) = false → _data_valid (self (step b o w)) = true →
     ∃ f, o = Run f ∧ outcome b o w = Ok None) ∧
  (∀ f, o = Run f → is_ok (outcome b o w) = true →
     _data_valid (self (step b o w)) = true) ∧
  (∀ f, o = Run f → is_ok (outcome b o w) = false →
     _data_valid (self (step b o w)) = _data_valid (self w)).
Proof.
  rewrite step_data_valid. split; [done|]. split; [|split; [|split; [|split]]].
  - intros Hv. destruct o as [f|]; [|done]. by destruct (is_ok _).
  - intros Hv history. by apply run_ops_keeps_data_valid.
  - intros Hv Hv'. destruct o as [f|]; [|congruence].
    exists f. split; [done|]. rewrite outcome_run.
    destruct (b f None); [done|]. simpl in Hv'. congruence.
  - intros f ->. rewrite outcome_run. by destruct (b f None).
  - intros f ->. rewrite outcome_run. by destruct (b f None).
Qed.

Lemma data_valid_monotone_witness :
  _data_valid (self (step abstract_backend (Run None)
                       (step serves_r1 (Run None) init))) = true.
Proof.
  apply (data_valid_monotone abstract_backend (Run None)
           (step serves_r1 (Run None) init)).
  apply (data_valid_monotone serves_r1 (Run None) init) with (f := None);
    reflexivity.
Defined.

(** ** The index only grows *)

(** C7. Whatever the operation (bulk refresh or lookup, with or without
    a point fetch) and whatever the backend does, every name mapped in
    the index before the operation is still mapped after it. *)
Theorem index_never_pruned b o w :
  dom (_devices (self w)) ⊆ dom (_devices (self (step b o w))).
Proof.
  rewrite step_devices.
  destruct (query o w) as [c|]; [|done].
  destruct (b _ _) as [ds|e]; [|done].
  apply merge_dom.
Qed.

(** ** Backend failures *)

(** C10. When the backend call of a bulk refresh or of a point fetch
    raises, the operation raises that same error, and the index and the
    readiness flag are exactly what they were before the operation. *)
Theorem backend_failure_is_atomic b o w c e :
  query o w = Some c →
  b (arg_name_filter c) (arg_hostname c) = Raise e →
  outcome b o w = Raise e ∧ self (step b o w) = self w.
Proof.
  destruct o as [f|[name] autofetch]; simpl.
  - intros [= <-]. simpl. intros Hb.
    rewrite outcome_run /step /exec /bind run_eq Hb. done.
  - rewrite /contains /=.
    destruct (_devices (self w) !! name) as [d|] eqn:Hd.
    + rewrite bool_decide_eq_true_2 //=.
    + rewrite bool_decide_eq_false_2 /=; [apply is_Some_None|].
      destruct autofetch; [|done]. intros [= <-]. simpl. intros Hb.
      rewrite /outcome /step /exec /bind get_miss_autofetch // Hb. done.
Qed.

Lemma backend_failure_is_atomic_witness :
  outcome failing (Get {| dev_hostname := "R1" |} true)
    (step serves_canonical (Run None) init)
  = Raise (BackendFailure "unreachable") ∧
  self (step failing (Get {| dev_hostname := "R1" |} true)
          (step serves_canonical (Run None) init))
  = self (step serves_canonical (Run None) init).
Proof.
  apply (backend_failure_is_atomic failing
           (Get {| dev_hostname := "R1" |} true)
           (step serves_canonical (Run None) init)
           (the_call None (Some "R1"))).
  - vm_compute. reflexivity.
  - reflexivity.
Defined.

(** ** Names and aliases in the index *)

Lemma merge_keyed ds m :
  keyed_by_own_names m → keyed_by_own_names (merge ds m).
Proof.
  intros Hm k d. rewrite merge_lookup.
  destruct (last_writer k ds) as [d'|] eqn:Hl.
  - intros [= ->]. by apply last_writer_Some in Hl as [_ ?].
  - apply Hm.
Qed.

Lemma reachable_keyed w :
  reachable w → keyed_by_own_names (_devices (self w)).
Proof.
  induction 1 as [|b o w _ IH].
  - intros k d. by rewrite lookup_empty.
  - rewrite step_devices.
    destruct (query o w) as [c|]; [|done].
    destruct (b _ _) as [ds|e]; [|done].
    by apply merge_keyed.
Qed.

Lemma merge_sole_bearer ds m d n :
  d ∈ ds → n ∈ names d →
  (∀ d', d' ∈ ds → n ∈ names d' → d' = d) →
  merge ds m !! n = Some d.
Proof.
  intros Hd Hn Hsole. rewrite merge_lookup.
  destruct (last_writer n ds) as [d'|] eqn:Hl.
  - apply last_writer_Some in Hl as [Hd' Hn']. f_equal. by apply Hsole.
  - exfalso. by eapply last_writer_None.
Qed.

(** C3, as stated, fails.  After two bulk refreshes between which
    [core1] changed its alias, the state is reachable, the old record is
    still stored under the old alias, and the primary name maps to the
    new record: a stored entity that is not found under its own primary
    name. *)
Lemma stale_alias_survives_refresh :
  reachable stale_world ∧
  _devices (self stale_world) !! "c1-old" = Some core1_then ∧
  _devices (self stale_world) !! "core1" = Some core1_now ∧
  ¬ own_names_current (_devices (self stale_world)).
Proof.
  split; [|split; [|split]].
  - apply reachable_step, reachable_step, reachable_init.
  - vm_compute. reflexivity.
  - vm_compute. reflexivity.
  - intros Hinv.
    assert (Hold : _devices (self stale_world) !! "c1-old" = Some core1_then)
      by (vm_compute; reflexivity).
    assert (Hnew : _devices (self stale_world) !! "core1" = Some core1_now)
      by (vm_compute; reflexivity).
    specialize (Hinv "c1-old" core1_then Hold "core1").
    rewrite Hnew in Hinv.
    assert (Hsame : Some core1_now = Some core1_then).
    { apply Hinv. rewrite elem_of_names. by left. }
    discriminate Hsame.
Qed.

Lemma merge_names_mapped ds m :
  own_names_mapped m → own_names_mapped (merge ds m).
Proof.
  intros Hm k d Hk n Hn. rewrite merge_lookup in Hk.
  destruct (last_writer k ds) as [d'|] eqn:Hl.
  - injection Hk as ->. apply last_writer_Some in Hl as [Hd _].
    rewrite merge_lookup.
    destruct (last_writer n ds) as [d''|] eqn:Hl'; [done|].
    exfalso. by eapply last_writer_None.
  - apply merge_preserves_names. by eapply Hm.
Qed.

Lemma reachable_names_mapped w :
  reachable w → own_names_mapped (_devices (self w)).
Proof.
  induction 1 as [|b o w _ IH].
  - intros k d. by rewrite lookup_empty.
  - rewrite step_devices.
    destruct (query o w) as [c|]; [|done].
    destruct (b _ _) as [ds|e]; [|done].
    by apply merge_names_mapped.
Qed.

(** C3, amended.  In every reachable state an entity is stored only
    under names it bears, its primary name or its non-empty alias; and
    every name a stored entity bears is itself mapped in the index, to
    an entity that bears that name: the stored entity or one written
    under the name later.  And right after an operation has merged the
    entities a backend call returned, each of them is found, as that
    same entity, under every name it bears that no other entity of the
    same answer bears. *)
Theorem merged_entities_reachable_by_own_names b o w :
  reachable w →
  (∀ k d, _devices (self w) !! k = Some d → bears d k) ∧
  (∀ k d n, _devices (self w) !! k = Some d → bears d n →
     ∃ d', _devices (self w) !! n = Some d' ∧ bears d' n) ∧
  (∀ c ds d n,
     query o w = Some c →
     b (arg_name_filter c) (arg_hostname c) = Ok ds →
     d ∈ ds → bears d n →
     (∀ d', d' ∈ ds → bears d' n → d' = d) →
     _devices (self (step b o w)) !! n = Some d).
Proof.
  intros Hw. split; [|split].
  - intros k d Hk. apply elem_of_names. by eapply reachable_keyed.
  - intros k d n Hk Hn.
    destruct (reachable_names_mapped w Hw k d Hk n) as [d' Hd'].
    { by apply elem_of_names. }
    exists d'. split; [done|].
    apply elem_of_names. by eapply reachable_keyed.
  - intros c ds d n Hq Hb Hd Hn Hsole.
    rewrite step_devices Hq Hb.
    apply merge_sole_bearer; [done|by apply elem_of_names|].
    intros d' Hd' Hn'. apply Hsole; [done|by apply elem_of_names].
Qed.

Lemma merged_entities_reachable_by_own_names_witness :
  _devices (self stale_world) !! "c1-new" = Some core1_now ∧
  ∃ d', _devices (self stale_world) !! "core1" = Some d' ∧ bears d' "core1".
Proof.
  split.
  - refine (proj2 (proj2 (merged_entities_reachable_by_own_names
                     directory_now (Run None)
                     (step directory_then (Run None) init) _))
              (the_call None None) [core1_now] core1_now "c1-new"
              eq_refl eq_refl _ _ _).
    + apply reachable_step, reachable_init.
    + apply list_elem_of_singleton. reflexivity.
    + right. split; [reflexivity|discriminate].
    + intros d' Hd' _. by apply list_elem_of_singleton in Hd'.
  - refine (proj1 (proj2 (merged_entities_reachable_by_own_names
                     failing (Run None) stale_world _))
              "c1-old" core1_then "core1" _ _).
    + apply reachable_step, reachable_step, reachable_init.
    + vm_compute. reflexivity.
    + left. reflexivity.
Defined.

(** ** Point fetches *)

Lemma merge_is_Some ds m k :
  is_Some (merge ds m !! k) ↔
  is_Some (m !! k) ∨ ∃ d, d ∈ ds ∧ bears d k.
Proof.
  rewrite merge_lookup.
  destruct (last_writer k ds) as [d|] eqn:Hl.
  - apply last_writer_Some in Hl as [Hd Hk].
    split; [|by eauto]. intros _. right. exists d.
    split; [done|by apply elem_of_names].
  - split; [by left|]. intros [?|(d & Hd & Hk)]; [done|].
    exfalso. eapply last_writer_None; [done..|by apply elem_of_names].
Qed.

(** C9. With the name absent from the index, [get] with autofetch
    succeeds exactly when the targeted backend call returns some entity
    that bears the name, as primary name or as non-empty alias.  When
    the call returns entities none of which bears the name, [get]
    raises the not-found error for the name, the name stays absent, and
    the returned entities are merged all the same: each primary name of
    the answer is now in the index. *)
Theorem point_fetch_indexes_own_names_only b name w :
  _devices (self w) !! name = None →
  let r := get b {| dev_hostname := name |} true w in
  (is_ok (fst r) = true ↔
     ∃ ds d, b None (Some name) = Ok ds ∧ d ∈ ds ∧ bears d name) ∧
  (∀ ds, b None (Some name) = Ok ds →
     (∀ d, d ∈ ds → ¬ bears d name) →
     fst r = Raise (KeyError "Device not found" name) ∧
     _devices (self (snd r)) !! name = None ∧
     _devices (self (snd r)) = merge ds (_devices (self w)) ∧
     ∀ d, d ∈ ds → is_Some (_devices (self (snd r)) !! hostname d)).
Proof.
  intros Hd r. subst r. rewrite get_miss_autofetch //.
  destruct (b None (Some name)) as [ds|e]; simpl.
  - assert (Hiff : is_Some (merge ds (_devices (self w)) !! name) ↔
                   ∃ d, d ∈ ds ∧ bears d name).
    { rewrite merge_is_Some Hd. split; [|by right].
      intros [[? [=]]|?]; done. }
    split.
    + rewrite /answer.
      destruct (merge ds (_devices (self w)) !! name) as [d|] eqn:Hm; simpl.
      * split; [|done]. intros _.
        destruct (proj1 Hiff) as (d' & ? & ?); [by eexists|by eauto].
      * split; [done|]. intros (ds' & d' & [= <-] & Hd' & Hn).
        destruct (proj2 Hiff) as [? [=]]. by eauto.
    + intros ? [= <-] Hnone.
      assert (Hm : merge ds (_devices (self w)) !! name = None).
      { apply eq_None_not_Some. rewrite Hiff.
        intros (d & ? & ?). by eapply Hnone. }
      rewrite /answer Hm. repeat split; [].
      intros d Hin. apply merge_is_Some. right. exists d.
      split; [done|by left].
  - split; [|by intros ds [=]].
    split; [done|]. by intros (ds & d & [=] & _).
Qed.

Lemma point_fetch_indexes_own_names_only_witness :
  fst (get serves_canonical {| dev_hostname := "R1" |} true init)
  = Raise (KeyError "Device not found" "R1") ∧
  is_Some (_devices (self (snd
    (get serves_canonical {| dev_hostname := "R1" |} true init)))
    !! "r1.example.net").
Proof.
  destruct (point_fetch_indexes_own_names_only serves_canonical "R1" init
              (lookup_empty _)) as [_ Hmiss].
  destruct (Hmiss [r1_canonical] eq_refl) as (Herr & _ & _ & Hall).
  - intros d Hd%list_elem_of_singleton. subst d.
    intros [[=]|[[=] _]].
  - split; [exact Herr|]. apply (Hall r1_canonical).
    apply list_elem_of_singleton. reflexivity.
Defined.

(** C6, as stated, fails: a backend that answers the targeted fetch of
    [R1] with exactly one entity, the canonical record, makes [get]
    raise. *)
Lemma point_fetch_of_other_name_fails :
  ¬ point_fetch_merge_as_stated serves_canonical r1_canonical ∧
  fst (get serves_canonical {| dev_hostname := "R1" |} true init)
  = Raise (KeyError "Device not found" "R1").
Proof.
  split; [|vm_compute; reflexivity].
  intros Hclaim. destruct (Hclaim eq_refl) as [Hfirst _].
  vm_compute in Hfirst. discriminate.
Qed.

(** C6, amended.  From the empty cache, when the targeted fetch of [R1]
    returns exactly one entity and that entity bears the name [R1],
    [get] returns that entity, and a second [get] without autofetch,
    whatever the backend then is, returns it again without a backend
    call. *)
Theorem point_fetch_merge b b' d :
  b None (Some "R1") = Ok [d] →
  bears d "R1" →
  let first := get b {| dev_hostname := "R1" |} true init in
  let second := get b' {| dev_hostname := "R1" |} false (snd first) in
  fst first = Ok d ∧
  fst second = Ok d ∧
  backend_calls (snd second) = backend_calls (snd first).
Proof.
  intros Hb Hbears first second. subst first second.
  rewrite get_miss_autofetch; [apply lookup_empty|].
  rewrite Hb. simpl.
  assert (Hm : merge [d] (∅ : gmap string DeviceInfo) !! "R1" = Some d).
  { apply merge_sole_bearer.
    - by apply list_elem_of_singleton.
    - by apply elem_of_names.
    - intros d' Hd' _. by apply list_elem_of_singleton in Hd'. }
  rewrite /answer Hm. split; [done|].
  by rewrite (get_hit _ _ _ _ d).
Qed.

Lemma point_fetch_merge_witness :
  fst (get serves_r1 {| dev_hostname := "R1" |} true init) = Ok r1 ∧
  fst (get failing {| dev_hostname := "R1" |} false
         (snd (get serves_r1 {| dev_hostname := "R1" |} true init)))
  = Ok r1.
Proof.
  destruct (point_fetch_merge serves_r1 failing r1 eq_refl
              (or_introl eq_refl)) as (H1 & H2 & _).
  split; [exact H1|exact H2].
Defined.

End DeviceDBFacts.

(** * Properties of the service lifecycle *)

Module ServiceFacts.
Import Service.

Implicit Types (w : World) (l : Loop) (t : Task).

(** ** Termination *)

Lemma terminate_eq w :
  terminate w =
    (Ok tt, in_env (with_loop stop)
              (in_env (with_loop cancel_all)
                 (in_env (emit (logger_info "Terminating")) w))).
Proof. reflexivity. Qed.

Lemma cancel_not_pending t : task_state (cancel t) ≠ Pending.
Proof. rewrite /cancel. by destruct (task_state t) eqn:Ht; rewrite ?Ht. Qed.

Lemma cancel_all_cancelled l : all_cancelled (cancel_all l).
Proof.
  intros t. rewrite /cancel_all /= list_elem_of_fmap.
  intros (t' & -> & _). apply cancel_not_pending.
Qed.

Lemma terminate_stops w :
  let w' := snd (terminate w) in
  stopping (loop (env w')) = true ∧
  all_cancelled (loop (env w')) ∧
  effects (env w') = effects (env w) ++ [logger_info "Terminating"] ∧
  self w' = self w.
Proof.
  rewrite terminate_eq /=. repeat split.
  intros t Ht. by apply (cancel_all_cancelled (loop (env w))).
Qed.

(** ** Shutdown signals *)

Lemma cancel_spelled_out t :
  cancel t =
    {| coro := coro t;
       task_state := match task_state t with
                     | Done => Done
                     | Pending | CancelRequested => CancelRequested
                     end |}.
Proof. by destruct t as [c []]. Qed.

Lemma terminate_tasks w :
  tasks (loop (env (snd (terminate w)))) =
    map (λ t, {| coro := coro t;
                 task_state := match task_state t with
                               | Done => Done
                               | Pending | CancelRequested => CancelRequested
                               end |})
        (tasks (loop (env w))).
Proof.
  rewrite terminate_eq /=. apply map_ext. intros t.
  apply cancel_spelled_out.
Qed.

(** C4. The first [shutdown] sets the shutting-down flag and schedules
    the drain coroutine as a new pending task, and does nothing else: no
    task is cancelled, the loop is not stopped, nothing is logged.  A
    [shutdown] that finds the flag set is [terminate], run within the
    call itself: on return the loop has been told to stop and holds the
    tasks it held at the call, each in its place with its coroutine,
    every one that was not done now with its cancellation requested,
    the done ones as they were.  So after two calls in a row the tasks
    are those of before the first call, cancelled, followed by the
    drain task, cancelled before it could wait. *)
Theorem second_shutdown_terminates w :
  (_shutting_down (self w) = false →
     let w1 := snd (shutdown w) in
     fst (shutdown w) = Ok tt ∧
     _shutting_down (self w1) = true ∧
     tasks (loop (env w1)) =
       tasks (loop (env w))
         ++ [{| coro := clean_shutdown_coro; task_state := Pending |}] ∧
     stopping (loop (env w1)) = stopping (loop (env w)) ∧
     effects (env w1) = effects (env w) ∧
     shutdown w1 = terminate w1 ∧
     stopping (loop (env (snd (shutdown w1)))) = true ∧
     tasks (loop (env (snd (shutdown w1)))) =
       map (λ t, {| coro := coro t;
                    task_state := match task_state t with
                                  | Done => Done
                                  | Pending | CancelRequested =>
                                      CancelRequested
                                  end |})
           (tasks (loop (env w)))
         ++ [{| coro := clean_shutdown_coro;
                task_state := CancelRequested |}]) ∧
  (_shutting_down (self w) = true →
     let w2 := snd (shutdown w) in
     shutdown w = terminate w ∧
     fst (shutdown w) = Ok tt ∧
     stopping (loop (env w2)) = true ∧
     tasks (loop (env w2)) =
       map (λ t, {| coro := coro t;
                    task_state := match task_state t with
                                  | Done => Done
                                  | Pending | CancelRequested =>
                                      CancelRequested
                                  end |})
           (tasks (loop (env w))) ∧
     all_cancelled (loop (env w2)) ∧
     effects (env w2) = effects (env w) ++ [logger_info "Terminating"] ∧
     self w2 = self w).
Proof.
  assert (Hagain : ∀ w', _shutting_down (self w') = true →
            shutdown w' = terminate w').
  { intros w' Hflag. by rewrite /shutdown /bind /gets /= Hflag. }
  split.
  - intros Hflag.
    assert (Hfirst : shutdown w =
      (Ok tt, in_env (with_loop (ensure_future clean_shutdown_coro))
                (set_shutting_down true w))).
    { by rewrite /shutdown /bind /gets /= Hflag. }
    cbv zeta. rewrite Hfirst. cbn [fst snd].
    split; [done|]. split; [done|]. split; [done|]. split; [done|].
    split; [done|]. rewrite Hagain //. split; [done|].
    split; [done|]. by rewrite terminate_tasks /= map_app.
  - intros Hflag. cbv zeta. rewrite (Hagain w Hflag).
    destruct (terminate_stops w) as (? & ? & ? & ?).
    split; [done|]. split; [done|]. split; [done|].
    split; [apply terminate_tasks|]. done.
Qed.

Lemma second_shutdown_terminates_witness :
  let w1 := snd (shutdown sample_world) in
  let w2 := snd (shutdown w1) in
  stopping (loop (env w1)) = false ∧
  stopping (loop (env w2)) = true ∧
  tasks (loop (env w2)) =
    [ {| coro := other_coro 1; task_state := CancelRequested |};
      {| coro := other_coro 2; task_state := Done |};
      {| coro := clean_shutdown_coro; task_state := CancelRequested |} ].
Proof.
  destruct (second_shutdown_terminates sample_world) as [Hfirst _].
  destruct (Hfirst eq_refl) as (_ & Hflag & _ & Hstop & _).
  destruct (second_shutdown_terminates (snd (shutdown sample_world)))
    as [_ Hsecond].
  destruct (Hsecond Hflag) as (_ & _ & Hstopped & Htasks & _).
  split; [exact Hstop|]. split; [exact Hstopped|].
  rewrite Htasks. reflexivity.
Defined.

(** ** The graceful drain *)

(** C5. However the bounded wait for the sessions ends, and whatever
    happened to the service while the drain was suspended,
    [_clean_shutdown] finishes by running [terminate]: the loop is told
    to stop, every task is cancelled, and the last thing logged is
    "Terminating".  When the wait ends normally the drain returns
    normally.  When it times out, the drain logs the timeout as an
    error, before terminating, and returns normally as well: the timeout
    is not raised. *)
Theorem drain_always_terminates (wait_outcome : result unit)
    (meanwhile : World → World) w :
  let r := _clean_shutdown wait_outcome meanwhile w in
  let w1 := resumed meanwhile w in
  (stopping (loop (env (snd r))) = true ∧
   all_cancelled (loop (env (snd r))) ∧
   ∃ before, effects (env (snd r)) = before ++ [logger_info "Terminating"]) ∧
  (wait_outcome = Ok tt → r = (Ok tt, snd (terminate w1))) ∧
  (wait_outcome = Raise AsyncTimeoutError →
     r = (Ok tt, snd (terminate (timeout_logged w1)))) ∧
  (∀ e, wait_outcome = Raise e → is_timeout e = false →
     r = (Raise e, snd (terminate w1))).
Proof.
  intros r w1. subst r w1.
  rewrite /_clean_shutdown /try_finally /try_except /bind /gets
    /await_wait_for /resumed /=.
  destruct wait_outcome as [[]|e]; [|destruct (is_timeout e) eqn:He].
  - split; [|by repeat split; intros; simplify_eq].
    split; [done|]. split; [apply cancel_all_cancelled|by eexists].
  - destruct e; try discriminate He. simpl.
    split; [|by repeat split; intros; simplify_eq].
    split; [done|]. split; [apply cancel_all_cancelled|by eexists].
  - split.
    { split; [done|]. split; [apply cancel_all_cancelled|by eexists]. }
    split; [done|]. split; [intros [= ->]; discriminate He|].
    by intros ? [= <-] _.
Qed.

Lemma drain_always_terminates_witness :
  _clean_shutdown (Raise AsyncTimeoutError) id sample_world
  = (Ok tt, snd (terminate (timeout_logged (resumed id sample_world)))) ∧
  effects (env (snd (_clean_shutdown (Raise AsyncTimeoutError) id
                       sample_world)))
  = [ wait_sessions "Shutdown" 300;
      logger_error "Timeout waiting for sessions, shutting down anyway";
      logger_info "Terminating" ].
Proof.
  destruct (drain_always_terminates (Raise AsyncTimeoutError) id
              sample_world) as (_ & _ & Htimeout & _).
  split; [exact (Htimeout eq_refl)|].
  rewrite (Htimeout eq_refl). reflexivity.
Defined.

(** ** Log levels *)

Lemma upper_ascii_not_lower c : is_lower (upper_ascii c) = false.
Proof.
  destruct c as [[] [] [] [] [] [] [] []]; vm_compute; reflexivity.
Qed.

Lemma has_lower_upper s : has_lower (upper s) = false.
Proof.
  induction s as [|c s IH]; [done|].
  cbn [has_lower upper]. by rewrite upper_ascii_not_lower IH.
Qed.

Lemma getattr_app attrs1 attrs2 s :
  getattr (attrs1 ++ attrs2) s =
    match getattr attrs1 s with
    | Some v => Some v
    | None => getattr attrs2 s
    end.
Proof.
  induction attrs1 as [|[k v] attrs1 IH]; [done|].
  rewrite /= /getattr -/getattr. by case_bool_decide.
Qed.

Lemma getattr_lower_case attrs s :
  lower_case_names attrs → has_lower s = false → getattr attrs s = None.
Proof.
  intros Hattrs Hs. induction Hattrs as [|[k v] attrs Hk _ IH]; [done|].
  rewrite /getattr -/getattr. case_bool_decide; [|done].
  simpl in Hk. congruence.
Qed.

(** On a name without lower-case letters, the attribute found among the
    listed constants is an integer exactly for the level names, and then
    it is a plain integer. *)
Lemma logging_constants_levels s :
  isinstance_int (getattr logging_constants s)
  = bool_decide (s ∈ level_names) ∧
  (isinstance_int (getattr logging_constants s) = true →
   ∃ n, getattr logging_constants s = Some (PyInt n)).
Proof.
  rewrite /logging_constants /getattr.
  repeat (case_bool_decide;
          [subst s;
           first [split; [by vm_compute|intros _; by eexists]
                 |split; [by vm_compute|intros Hi; by vm_compute in Hi]]|]).
  split; [|by intros [=]].
  symmetry. apply bool_decide_eq_false_2.
  rewrite /level_names !elem_of_cons elem_of_nil. naive_solver.
Qed.

Lemma logging_levels others s :
  lower_case_names others →
  has_lower s = false →
  (s ∈ level_names → ∃ n, getattr (logging others) s = Some (PyInt n)) ∧
  (s ∉ level_names → isinstance_int (getattr (logging others) s) = false).
Proof.
  intros Hothers Hs.
  destruct (logging_constants_levels s) as [Hdec Hint].
  rewrite /logging getattr_app. split.
  - intros Hin. destruct Hint as [n ->]; [|by eexists].
    by rewrite Hdec bool_decide_eq_true_2.
  - intros Hout. rewrite bool_decide_eq_false_2 // in Hdec.
    destruct (getattr logging_constants s) as [v|]; [done|].
    by rewrite getattr_lower_case.
Qed.

Lemma _init_logging_eq others config e0 :
  _init_logging others config e0 =
    let level := getattr (logging others) (upper (log_level config)) in
    if isinstance_int level
    then (Ok tt, emit (basicConfig level) e0)
    else (Raise (ValueError ("Invalid log level: " +:+ log_level config)), e0).
Proof. rewrite /_init_logging /=. by destruct (isinstance_int _). Qed.

(** C8. For a configured level name of ASCII characters, and whatever
    lower-case-named attributes the [logging] module has:
    when the configured level name is not recognized, [_init_logging]
    raises [ValueError] and calls nothing, and the constructor raises it
    too: no service object exists to be started, and no signal handler
    has been installed.  When the name is recognized, [_init_logging]
    installs that level, an integer of the [logging] module, and the
    constructor goes on to install the signal handlers and returns the
    service, not shutting down. *)
Theorem unrecognized_log_level_is_fatal
    (others : list (string * pyobj))
    (ThreadPoolExecutor : Z → result Executor) app_name config e0 x :
  is_ascii (log_level config) = true →
  lower_case_names others →
  ThreadPoolExecutor (max_default_executor_threads config) = Ok x →
  let started := __init__ others ThreadPoolExecutor app_name config e0 in
  (¬ recognized (log_level config) →
     _init_logging others config e0
     = (Raise (ValueError ("Invalid log level: " +:+ log_level config)), e0) ∧
     fst started
     = Raise (ValueError ("Invalid log level: " +:+ log_level config)) ∧
     effects (snd started) = effects e0 ∧
     signal_handlers (loop (snd started)) = signal_handlers (loop e0)) ∧
  (recognized (log_level config) →
     ∃ n, getattr (logging others) (upper (log_level config))
          = Some (PyInt n) ∧
       _init_logging others config e0
       = (Ok tt, emit (basicConfig (Some (PyInt n))) e0) ∧
       fst started = Ok {| _app_name := app_name; _config := config;
                           _shutting_down := false |} ∧
       effects (snd started) = effects e0 ++ [basicConfig (Some (PyInt n))] ∧
       signal_handlers (loop (snd started)) =
         signal_handlers (loop e0)
           ++ [(SIGINT, call_shutdown); (SIGTERM, call_shutdown)]).
Proof.
  intros _ Hothers Hx started. subst started.
  destruct (logging_levels others (upper (log_level config)) Hothers
              (has_lower_upper _)) as [Hyes Hno].
  rewrite /__init__ /bind Hx /modify /= !_init_logging_eq /=.
  split.
  - intros Hr. rewrite (Hno Hr). done.
  - intros Hr. destruct (Hyes Hr) as [n Hn]. exists n.
    rewrite Hn /=. repeat split. by rewrite -(assoc_L (++)).
Qed.

Lemma sample_others_lower_case : lower_case_names logging_sample_others.
Proof. repeat constructor. Qed.

Lemma unrecognized_log_level_is_fatal_witness :
  fst (__init__ logging_sample_others sample_executor "fcr"
         {| max_default_executor_threads := 4; exit_max_wait := 300;
            log_level := "verbose" |} sample_env)
  = Raise (ValueError "Invalid log level: verbose") ∧
  effects (snd (__init__ logging_sample_others sample_executor "fcr"
                  sample_config sample_env))
  = [basicConfig (Some (PyInt 20))].
Proof.
  split.
  - destruct (unrecognized_log_level_is_fatal logging_sample_others
                sample_executor "fcr"
                {| max_default_executor_threads := 4; exit_max_wait := 300;
                   log_level := "verbose" |} sample_env
                {| max_workers := 4 |} eq_refl sample_others_lower_case
                eq_refl)
      as [Hbad _].
    destruct Hbad as (_ & Hraise & _); [|exact Hraise].
    rewrite /recognized. vm_compute. set_solver.
  - destruct (unrecognized_log_level_is_fatal logging_sample_others
                sample_executor "fcr" sample_config sample_env
                {| max_workers := 4 |} eq_refl sample_others_lower_case
                eq_refl)
      as [_ Hgood].
    destruct Hgood as (n & Hn & _ & _ & Heff & _).
    + rewrite /recognized. vm_compute. set_solver.
    + rewrite Heff. vm_compute in Hn. by simplify_eq.
Defined.

End ServiceFacts.

(** * Further properties of the device directory cache *)

Module DeviceDBExtra.
Import DeviceDB DeviceDBFacts.

Implicit Types (w : World) (m : gmap string DeviceInfo) (d : DeviceInfo)
  (ds : list DeviceInfo) (k name : string) (b : Backend) (o : op).

Lemma step_get b dev autofetch w :
  step b (Get dev autofetch) w = snd (get b dev autofetch w).
Proof.
  rewrite /step /exec /bind. by destruct (get b dev autofetch w) as [[?|?] ?].
Qed.

Lemma outcome_get b dev autofetch w :
  outcome b (Get dev autofetch) w =
    match fst (get b dev autofetch w) with
    | Ok d => Ok (Some d)
    | Raise e => Raise e
    end.
Proof.
  rewrite /outcome /exec /bind.
  by destruct (get b dev autofetch w) as [[?|?] ?].
Qed.

Lemma get_cases b name autofetch w :
  get b {| dev_hostname := name |} autofetch w =
    match _devices (self w) !! name with
    | Some d => (Ok d, w)
    | None =>
        if autofetch then
          match b None (Some name) with
          | Ok ds =>
              let w' := with_devices (merge ds (_devices (self w)))
                          (record_call (the_call None (Some name)) w) in
              (answer name (_devices (self w')), w')
          | Raise e => (Raise e, record_call (the_call None (Some name)) w)
          end
        else (Raise (KeyError "Device not found" name), w)
    end.
Proof.
  destruct (_devices (self w) !! name) as [d|] eqn:Hd.
  - by apply get_hit.
  - destruct autofetch.
    + by apply get_miss_autofetch.
    + by apply get_miss_no_autofetch.
Qed.

Lemma contains_lookup name w :
  contains name w = bool_decide (is_Some (_devices (self w) !! name)).
Proof. done. Qed.

Lemma fetch_devices_index b name_filter hostname w ds :
  b name_filter hostname = Ok ds →
  _devices (self (snd (_fetch_devices b name_filter hostname w)))
  = merge ds (_devices (self w)).
Proof. intros Hb. by rewrite _fetch_devices_eq Hb. Qed.

Lemma last_writer_app k ds1 d ds2 :
  k ∈ names d → (∀ d', d' ∈ ds2 → k ∉ names d') →
  last_writer k (ds1 ++ d :: ds2) = Some d.
Proof.
  intros Hk Hrest. induction ds1 as [|d1 ds1 IH]; simpl.
  - apply last_writer_None in Hrest. rewrite Hrest /writes.
    by rewrite bool_decide_eq_true_2.
  - by rewrite IH.
Qed.

Lemma merge_idempotent ds m : merge ds (merge ds m) = merge ds m.
Proof.
  apply map_eq. intros k. rewrite (merge_lookup ds (merge ds m)).
  destruct (last_writer k ds) as [d|] eqn:Hl; [|done].
  by rewrite merge_lookup Hl.
Qed.

Lemma merge_app ds1 ds2 m : merge (ds1 ++ ds2) m = merge ds2 (merge ds1 m).
Proof. by rewrite /merge foldl_app. Qed.

(** ** Calls to the backend *)

(** X1. Every operation appends to the list of backend calls exactly the
    calls it makes and changes nothing else of it: a bulk refresh makes
    one call, with the configured filter and no hostname; a lookup makes
    none when the name is in the index or autofetch is off, and
    otherwise one, with the hostname and no filter. *)
Theorem backend_call_accounting b o w :
  backend_calls (step b o w) =
    backend_calls w ++
      match o with
      | Run f => [the_call f None]
      | Get dev autofetch =>
          if bool_decide (is_Some (_devices (self w) !! dev_hostname dev))
             || negb autofetch
          then []
          else [the_call None (Some (dev_hostname dev))]
      end.
Proof.
  destruct o as [f|[name] autofetch].
  - rewrite /step /exec /bind run_eq. by destruct (b f None).
  - rewrite step_get get_cases /=.
    destruct (_devices (self w) !! name) as [d|] eqn:Hd.
    + rewrite bool_decide_eq_true_2 //=. by rewrite app_nil_r.
    + rewrite bool_decide_eq_false_2 /=; [apply is_Some_None|].
      destruct autofetch; simpl; [|by rewrite app_nil_r].
      by destruct (b None (Some name)).
Qed.

(** ** What a fetch writes *)

(** X2. A fetch leaves alone every name that none of the returned
    entities bears: its entry, or its absence, is what it was.  In
    particular the empty string becomes a key only as a hostname, never
    as an alias. *)
Theorem fetch_leaves_other_names b name_filter target w ds :
  b name_filter target = Ok ds →
  (∀ k, (∀ d, d ∈ ds → ¬ bears d k) →
     _devices (self (snd (_fetch_devices b name_filter target w))) !! k
     = _devices (self w) !! k) ∧
  ((∀ d, d ∈ ds → hostname d ≠ "") →
     _devices (self (snd (_fetch_devices b name_filter target w))) !! ""
     = _devices (self w) !! "").
Proof.
  intros Hb. rewrite (fetch_devices_index _ _ _ _ ds) //.
  assert (Hframe : ∀ k, (∀ d, d ∈ ds → ¬ bears d k) →
            merge ds (_devices (self w)) !! k = _devices (self w) !! k).
  { intros k Hk. rewrite merge_lookup.
    assert (last_writer k ds = None) as ->; [|done].
    apply last_writer_None. intros d Hd Hn. apply (Hk d Hd).
    by apply elem_of_names. }
  split; [done|]. intros Hhost. apply Hframe.
  intros d Hd [Hh|[_ Hne]]; [by apply (Hhost d)|done].
Qed.

Lemma fetch_leaves_other_names_witness :
  _devices (self (snd (_fetch_devices directory_now None None
                         (step directory_then (Run None) init))))
    !! "c1-old" = Some core1_then.
Proof.
  destruct (fetch_leaves_other_names directory_now None None
              (step directory_then (Run None) init) [core1_now] eq_refl)
    as [Hframe _].
  rewrite Hframe; [|vm_compute; reflexivity].
  intros d Hd%list_elem_of_singleton. subst d.
  intros [[=]|[[=] _]].
Defined.

(** X3. Within one answer the last write wins: when an entity of the
    answer bears a name and no entity after it in the answer does, that
    entity is what the name maps to after the fetch, whatever came before
    it in the answer and whatever the index held. *)
Theorem fetch_last_write_wins b name_filter hostname w ds1 d ds2 k :
  b name_filter hostname = Ok (ds1 ++ d :: ds2) →
  bears d k →
  (∀ d', d' ∈ ds2 → ¬ bears d' k) →
  _devices (self (snd (_fetch_devices b name_filter hostname w))) !! k
  = Some d.
Proof.
  intros Hb Hk Hrest.
  rewrite (fetch_devices_index _ _ _ _ (ds1 ++ d :: ds2)) //.
  rewrite merge_lookup last_writer_app //; [by apply elem_of_names|].
  intros d' Hd' Hn. apply (Hrest d' Hd'). by apply elem_of_names.
Qed.

Lemma fetch_last_write_wins_witness :
  _devices (self (snd (_fetch_devices (λ _ _, Ok [core1_then; core1_now])
                         None None init))) !! "core1" = Some core1_now.
Proof.
  apply (fetch_last_write_wins (λ _ _, Ok [core1_then; core1_now])
           None None init [core1_then] core1_now [] "core1" eq_refl).
  - left. reflexivity.
  - intros d' Hd'. by apply elem_of_nil in Hd'.
Defined.

(** X4. A bulk refresh is idempotent: when the backend gives the same
    answer twice, the second refresh leaves the index and the readiness
    flag exactly as the first one left them. *)
Theorem refresh_is_idempotent b f w ds :
  b f None = Ok ds →
  self (step b (Run f) (step b (Run f) w)) = self (step b (Run f) w).
Proof.
  intros Hb. rewrite /step /exec /bind !run_eq Hb /=.
  by rewrite merge_idempotent.
Qed.

Lemma refresh_is_idempotent_witness :
  self (step directory_now (Run None) (step directory_now (Run None) init))
  = self (step directory_now (Run None) init).
Proof.
  apply (refresh_is_idempotent directory_now None init [core1_now]).
  reflexivity.
Defined.

(** X5. Fetches compose: a fetch that returns [ds1] followed by a fetch
    that returns [ds2] leaves the index that a single fetch returning
    [ds1] followed by [ds2] leaves. *)
Theorem fetches_compose b1 b2 b12 nf1 h1 nf2 h2 nf h w ds1 ds2 :
  b1 nf1 h1 = Ok ds1 →
  b2 nf2 h2 = Ok ds2 →
  b12 nf h = Ok (ds1 ++ ds2) →
  _devices (self (snd (_fetch_devices b2 nf2 h2
                         (snd (_fetch_devices b1 nf1 h1 w)))))
  = _devices (self (snd (_fetch_devices b12 nf h w))).
Proof.
  intros H1 H2 H12.
  rewrite (fetch_devices_index _ _ _ _ ds2) //.
  rewrite (fetch_devices_index _ _ _ _ ds1) //.
  rewrite (fetch_devices_index _ _ _ _ (ds1 ++ ds2)) //.
  by rewrite merge_app.
Qed.

Lemma fetches_compose_witness :
  _devices (self (snd (_fetch_devices directory_now None None
                         (snd (_fetch_devices directory_then None None
                                 init)))))
  = _devices (self (snd (_fetch_devices
                           (λ _ _, Ok [core1_then; core1_now])
                           None None init))).
Proof.
  apply (fetches_compose directory_then directory_now
           (λ _ _, Ok [core1_then; core1_now])
           None None None None None None init [core1_then] [core1_now]);
    reflexivity.
Defined.

(** ** What a lookup returns *)

Lemma get_ok_lookup b dev autofetch w d :
  fst (get b dev autofetch w) = Ok d →
  _devices (self (snd (get b dev autofetch w))) !! dev_hostname dev = Some d.
Proof.
  destruct dev as [name]. rewrite get_cases /=.
  destruct (_devices (self w) !! name) as [d'|] eqn:Hd; simpl.
  - by intros [= <-].
  - destruct autofetch; [|done].
    destruct (b None (Some name)) as [ds|e]; [|done].
    rewrite /answer /=.
    by destruct (merge ds (_devices (self w)) !! name); intros [= <-].
Qed.

(** X6. In every state the cache can reach, the entity a lookup returns
    bears the name that was asked for: it is its primary name or its
    non-empty alias. *)
Theorem get_returns_a_bearer b dev autofetch w d :
  reachable w →
  fst (get b dev autofetch w) = Ok d →
  bears d (dev_hostname dev).
Proof.
  intros Hw Hd. apply elem_of_names.
  apply (reachable_keyed (step b (Get dev autofetch) w)).
  - by apply reachable_step.
  - rewrite step_get. by apply get_ok_lookup.
Qed.

Lemma get_returns_a_bearer_witness : bears core1_then "c1-old".
Proof.
  apply (get_returns_a_bearer failing {| dev_hostname := "c1-old" |} false
           stale_world core1_then).
  - apply reachable_step, reachable_step, reachable_init.
  - vm_compute. reflexivity.
Defined.

(** X7. A lookup that succeeded can be repeated: asked again for the
    same name, with or without autofetch and whatever the backend has
    become, [get] returns the same entity and changes nothing, so it
    makes no backend call. *)
Theorem get_again_hits_the_cache b b' dev autofetch autofetch' w d :
  fst (get b dev autofetch w) = Ok d →
  get b' dev autofetch' (snd (get b dev autofetch w))
  = (Ok d, snd (get b dev autofetch w)).
Proof.
  intros Hd%get_ok_lookup. destruct dev as [name]. by apply get_hit.
Qed.

Lemma get_again_hits_the_cache_witness :
  get failing {| dev_hostname := "R1" |} true
    (snd (get serves_r1 {| dev_hostname := "R1" |} true init))
  = (Ok r1, snd (get serves_r1 {| dev_hostname := "R1" |} true init)).
Proof.
  apply (get_again_hits_the_cache serves_r1 failing
           {| dev_hostname := "R1" |} true true init r1).
  vm_compute. reflexivity.
Defined.

(** ** Readiness *)

Lemma step_calls_grow b o w c :
  c ∈ backend_calls w → c ∈ backend_calls (step b o w).
Proof.
  intros Hc. destruct o as [f|[name] autofetch].
  - rewrite /step /exec /bind run_eq.
    destruct (b f None); simpl; set_solver.
  - rewrite step_get get_cases.
    destruct (_devices (self w) !! name) as [d|]; [done|].
    destruct autofetch; [|done].
    destruct (b None (Some name)); simpl; set_solver.
Qed.

(** X8. Readiness is earned by a bulk fetch only.  In every reachable
    state in which the cache is ready, the backend has been called at
    least once without a hostname; and lookups, point fetches included,
    never change the readiness flag, however many of them run. *)
Theorem ready_only_after_bulk_fetch w history :
  (reachable w → _data_valid (self w) = true →
     ∃ f, the_call f None ∈ backend_calls w) ∧
  (Forall (λ bo, ∃ dev autofetch, bo.2 = Get dev autofetch) history →
     _data_valid (self (run_ops history w)) = _data_valid (self w)).
Proof.
  split.
  - induction 1 as [|b o w Hw IH]; [done|].
    rewrite step_data_valid. destruct o as [f|dev autofetch].
    + intros _. exists f. rewrite /step /exec /bind run_eq.
      destruct (b f None); simpl; set_solver.
    + intros Hv. destruct (IH Hv) as [f Hf]. exists f.
      by apply step_calls_grow.
  - revert w. induction history as [|[b o] history IH]; intros w Hall; [done|].
    apply Forall_cons in Hall as [(dev & autofetch & Ho) Hall].
    simpl in Ho. subst o. simpl. rewrite IH //.
    by rewrite step_data_valid.
Qed.

Lemma ready_only_after_bulk_fetch_witness :
  (∃ f, the_call f None ∈ backend_calls stale_world) ∧
  _data_valid (self (run_ops
     [(serves_r1, Get {| dev_hostname := "R1" |} true);
      (serves_canonical, Get {| dev_hostname := "R2" |} true)] init))
  = false.
Proof.
  split.
  - apply (proj1 (ready_only_after_bulk_fetch stale_world [])).
    + apply reachable_step, reachable_step, reachable_init.
    + reflexivity.
  - apply (proj2 (ready_only_after_bulk_fetch init
       [(serves_r1, Get {| dev_hostname := "R1" |} true);
        (serves_canonical, Get {| dev_hostname := "R2" |} true)])).
    repeat constructor; by eexists _, _.
Defined.

(** X9. An empty answer is a successful one.  A bulk refresh to which
    the backend returns no entity returns normally and marks the cache
    ready, with the index as it was; a point fetch to which the backend
    returns no entity leaves the index as it was and raises the
    not-found error for the name. *)
Theorem empty_answer b f name w :
  (b f None = Ok [] →
     outcome b (Run f) w = Ok None ∧
     _data_valid (self (step b (Run f) w)) = true ∧
     _devices (self (step b (Run f) w)) = _devices (self w)) ∧
  (_devices (self w) !! name = None → b None (Some name) = Ok [] →
     fst (get b {| dev_hostname := name |} true w)
     = Raise (KeyError "Device not found" name) ∧
     self (snd (get b {| dev_hostname := name |} true w)) = self w).
Proof.
  split.
  - intros Hb. rewrite outcome_run /step /exec /bind run_eq Hb. done.
  - intros Hd Hb. rewrite get_cases Hd Hb /= /answer /= Hd.
    split; [done|]. by destruct w as [[] ?].
Qed.

Lemma empty_answer_witness :
  _data_valid (self (step (λ _ _, Ok []) (Run None) init)) = true ∧
  _devices (self (step (λ _ _, Ok []) (Run None) init)) = ∅.
Proof.
  destruct (empty_answer (λ _ _, Ok []) None "R1" init) as [Hrun _].
  destruct (Hrun eq_refl) as (_ & Hv & Hi). split; [exact Hv|exact Hi].
Defined.

(** X10. The base class cannot serve as a cache.  With
    [_fetch_device_data] not overridden, every bulk refresh raises
    [NotImplementedError], so does every lookup with autofetch of a name
    that is not in the index (it is not reported as not found), and no
    history of operations changes the index or makes the cache ready. *)
Theorem base_class_fetches_nothing w history :
  (∀ f, outcome abstract_backend (Run f) w
        = Raise (NotImplementedError
                   "Please implement this get host information")) ∧
  (∀ name, _devices (self w) !! name = None →
     fst (get abstract_backend {| dev_hostname := name |} true w)
     = Raise (NotImplementedError
                "Please implement this get host information")) ∧
  (Forall (λ bo, bo.1 = abstract_backend) history →
     self (run_ops history w) = self w).
Proof.
  split; [|split].
  - intros f. by rewrite outcome_run.
  - intros name Hd. by rewrite get_cases Hd.
  - revert w. induction history as [|[b o] history IH]; intros w Hall; [done|].
    apply Forall_cons in Hall as [Hb Hall]. simpl in Hb. subst b.
    simpl. rewrite IH //.
    destruct o as [f|[name] autofetch].
    + by rewrite /step /exec /bind run_eq.
    + rewrite step_get get_cases.
      destruct (_devices (self w) !! name); [done|]. by destruct autofetch.
Qed.

Lemma base_class_fetches_nothing_witness :
  self (run_ops [(abstract_backend, Run None);
                 (abstract_backend, Get {| dev_hostname := "R1" |} true)]
          init) = self init.
Proof.
  apply (base_class_fetches_nothing init
           [(abstract_backend, Run None);
            (abstract_backend, Get {| dev_hostname := "R1" |} true)]).
  repeat constructor.
Defined.

End DeviceDBExtra.

(** * Properties of waiting for the data *)

Module WaitingFacts.
Import DeviceDB Waiting.

Implicit Types (s : Logged) (wait : M Logged unit) (fuel n : nat).

Lemma wait_for_data_valid wait fuel s :
  _data_valid (self (cache s)) = true →
  wait_for_data wait fuel s = Some (Ok tt, info "Device data valid" s).
Proof. intros Hv. destruct fuel; simpl; by rewrite Hv. Qed.

Lemma wait_for_data_waiting wait fuel s :
  _data_valid (self (cache s)) = false →
  wait_for_data wait (S fuel) s =
    match wait (info "Waiting for data" s) with
    | (Ok _, s') => wait_for_data wait fuel s'
    | (Raise e, s') => Some (Raise e, s')
    end.
Proof. intros Hv. simpl. by rewrite Hv. Qed.

(** X11. [wait_for_data] returns normally only with the data valid, and
    the last thing it logs is then "Device data valid".  When the data
    is valid at the call it returns at once, without suspending and
    without logging that it waits.  An exception of [wait] is passed on
    to the caller. *)
Theorem wait_for_data_returns_valid wait fuel s :
  (_data_valid (self (cache s)) = true →
     wait_for_data wait fuel s = Some (Ok tt, info "Device data valid" s)) ∧
  (∀ s', wait_for_data wait fuel s = Some (Ok tt, s') →
     _data_valid (self (cache s')) = true ∧
     ∃ before, info_log s' = before ++ ["Device data valid"]) ∧
  (∀ e s', _data_valid (self (cache s)) = false →
     wait (info "Waiting for data" s) = (Raise e, s') →
     wait_for_data wait (S fuel) s = Some (Raise e, s')).
Proof.
  split; [apply wait_for_data_valid|]. split.
  - revert s. induction fuel as [|fuel IH]; intros s s'.
    + simpl. destruct (_data_valid (self (cache s))) eqn:Hv; [|done].
      intros [= <-]. split; [done|by eexists].
    + destruct (_data_valid (self (cache s))) eqn:Hv.
      * rewrite wait_for_data_valid //. intros [= <-].
        split; [done|by eexists].
      * rewrite wait_for_data_waiting //.
        destruct (wait _) as [[[]|e] s1]; [apply IH|done].
  - intros e s' Hv Hw. by rewrite wait_for_data_waiting // Hw.
Qed.

Lemma wait_for_data_returns_valid_witness :
  wait_for_data (refresh_meanwhile failing None) 3
    (in_cache (step serves_r1 (Run None)) fresh)
  = Some (Ok tt, info "Device data valid"
                   (in_cache (step serves_r1 (Run None)) fresh)).
Proof.
  apply (wait_for_data_returns_valid (refresh_meanwhile failing None) 3
           (in_cache (step serves_r1 (Run None)) fresh)).
  reflexivity.
Defined.

(** X12. [wait_for_data] returns exactly when the data has become
    valid.  If the data is first valid after [n] suspensions, all of
    which ended normally, then the call returns normally in the state
    reached then, having logged "Waiting for data" once per suspension;
    any bound of at least [n] iterations gives this result.  And as long
    as the data is not valid the call is still waiting: if the data is
    invalid at the call and after each of the first [fuel] suspensions,
    the loop has not returned within [fuel] iterations. *)
Theorem wait_for_data_returns_when_valid wait n fuel s :
  waits_return wait n s →
  ((∀ i, i < n → _data_valid (self (cache (after_waits wait i s))) = false) →
   _data_valid (self (cache (after_waits wait n s))) = true →
   n ≤ fuel →
   wait_for_data wait fuel s
   = Some (Ok tt, info "Device data valid" (after_waits wait n s))) ∧
  ((∀ i, i ≤ n → _data_valid (self (cache (after_waits wait i s))) = false) →
   wait_for_data wait n s = None).
Proof.
  revert fuel s. induction n as [|n IH]; intros fuel s Hret.
  - split.
    + intros _ Hv _. by apply wait_for_data_valid.
    + intros Hinv. simpl. by rewrite (Hinv 0).
  - destruct Hret as [Hok Hret]. split.
    + intros Hinv Hv Hle. destruct fuel as [|fuel]; [lia|].
      rewrite wait_for_data_waiting; [apply (Hinv 0); lia|].
      cbn [after_waits] in Hv |- *.
      destruct (wait (info "Waiting for data" s))
        as [[[]|e] s1] eqn:Hw; [|done].
      simpl in *. apply (proj1 (IH fuel s1 Hret)); [|done|lia].
      intros i Hi. specialize (Hinv (S i)). simpl in Hinv.
      rewrite Hw in Hinv. apply Hinv. lia.
    + intros Hinv. rewrite wait_for_data_waiting; [apply (Hinv 0); lia|].
      destruct (wait (info "Waiting for data" s)) as [[[]|e] s1] eqn:Hw;
        [|done].
      simpl in *. apply (proj2 (IH n s1 Hret)).
      intros i Hi. specialize (Hinv (S i)). simpl in Hinv.
      rewrite Hw in Hinv. apply Hinv. lia.
Qed.

Lemma wait_for_data_returns_when_valid_witness :
  wait_for_data (refresh_meanwhile serves_r1 None) 5 fresh
  = Some (Ok tt, {| cache := step serves_r1 (Run None) init;
                    info_log := ["Waiting for data"; "Device data valid"] |}).
Proof.
  refine (proj1 (wait_for_data_returns_when_valid
                   (refresh_meanwhile serves_r1 None) 1 5 fresh _) _ _ _).
  - split; [reflexivity|exact I].
  - intros i Hi. assert (i = 0) as -> by lia. reflexivity.
  - reflexivity.
  - lia.
Defined.

End WaitingFacts.

(** * Further properties of the service lifecycle *)

Module LifecycleFacts.
Import Service ServiceFacts Lifecycle.

Implicit Types (w : World) (l : Loop) (t : Task) (r : request)
  (history : list request).

(** ** The shutdown methods in closed form *)

Lemma cancel_idempotent t : cancel (cancel t) = cancel t.
Proof. destruct t as [c []]; reflexivity. Qed.

Lemma cancel_coro t : coro (cancel t) = coro t.
Proof. by destruct t as [c []]. Qed.

Lemma cancel_settled t : task_state t ≠ Pending → cancel t = t.
Proof. by destruct t as [c []]. Qed.

Lemma shutdown_first w :
  _shutting_down (self w) = false →
  shutdown w =
    (Ok tt, in_env (with_loop (ensure_future clean_shutdown_coro))
              (set_shutting_down true w)).
Proof. intros Hf. by rewrite /shutdown /bind /gets /= Hf. Qed.

Lemma shutdown_again w :
  _shutting_down (self w) = true → shutdown w = terminate w.
Proof. intros Hf. by rewrite /shutdown /bind /gets /= Hf. Qed.

Lemma serve_self r w :
  self (snd (serve r w)) =
    match r with
    | Shutdown => {| _app_name := _app_name (self w);
                     _config := _config (self w);
                     _shutting_down := true |}
    | _ => self w
    end.
Proof.
  destruct r as [| |wait_outcome meanwhile|others]; simpl; [|done| |done].
  - destruct (_shutting_down (self w)) eqn:Hf.
    + rewrite shutdown_again //=. destruct w as [[] ?]. simpl in *. by subst.
    + by rewrite shutdown_first.
  - rewrite /_clean_shutdown /try_finally /try_except /bind /gets
      /await_wait_for /=.
    by destruct wait_outcome as [[]|e]; [|destruct (is_timeout e)].
Qed.

(** ** Termination, repeated *)

(** X15. [terminate] can be repeated: a second call leaves the loop as
    the first one left it.  It keeps every task in its place with its
    coroutine, leaves alone the tasks that are done or already
    cancelled, and touches neither the service object, nor the signal
    handlers, nor the default executor. *)
Theorem terminate_is_idempotent w :
  let w1 := snd (terminate w) in
  loop (env (snd (terminate w1))) = loop (env w1) ∧
  self w1 = self w ∧
  map coro (tasks (loop (env w1))) = map coro (tasks (loop (env w))) ∧
  (∀ i t, tasks (loop (env w)) !! i = Some t → task_state t ≠ Pending →
     tasks (loop (env w1)) !! i = Some t) ∧
  signal_handlers (loop (env w1)) = signal_handlers (loop (env w)) ∧
  default_executor (loop (env w1)) = default_executor (loop (env w)).
Proof.
  rewrite terminate_eq /=. repeat split.
  - rewrite /cancel_all /stop /=. f_equal.
    rewrite map_map. apply map_ext. intros t. apply cancel_idempotent.
  - rewrite map_map. apply map_ext. intros t. apply cancel_coro.
  - intros i t Hi Ht.
    change (map cancel (tasks (loop (env w))))
      with (cancel <$> tasks (loop (env w))).
    rewrite list_lookup_fmap Hi /=. by rewrite cancel_settled.
Qed.

Lemma terminate_is_idempotent_witness :
  tasks (loop (env (snd (terminate sample_world)))) !! 1
  = Some {| coro := other_coro 2; task_state := Done |}.
Proof.
  destruct (terminate_is_idempotent sample_world) as (_ & _ & _ & Hkeep & _).
  apply (Hkeep 1); [reflexivity|discriminate].
Defined.

(** ** Histories of shutdown calls *)

Lemma run_requests_snoc history r w :
  run_requests (history ++ [r]) w = snd (serve r (run_requests history w)).
Proof. by rewrite /run_requests foldl_app. Qed.

Lemma run_requests_flag history w :
  _shutting_down (self (run_requests history w)) = true
  ↔ _shutting_down (self w) = true ∨ Shutdown ∈ history.
Proof.
  induction history as [|r history IH] using rev_ind.
  - simpl. split; [by left|]. by intros [?|?%elem_of_nil].
  - rewrite run_requests_snoc serve_self elem_of_app list_elem_of_singleton.
    destruct r; simpl; rewrite ?IH; naive_solver.
Qed.

(** X16. Only the first [shutdown] drains.  Whatever happens between the
    calls (calls of [terminate], runs of the drain coroutine however
    they end, the loop running other tasks, which may finish, start or
    log), a service is shutting down exactly when it was so before or
    [shutdown] has been called since.  So a [shutdown] that follows an
    earlier one terminates: the loop is told to stop and holds the tasks
    it held at the call, cancelled.  And a [shutdown] that no other
    preceded schedules the drain as a new pending task beside the tasks
    the loop holds, and stops nothing.  The name and the configuration
    of the service never change. *)
Theorem only_the_first_shutdown_drains history w :
  let w' := run_requests history w in
  (_shutting_down (self w') = true
   ↔ _shutting_down (self w) = true ∨ Shutdown ∈ history) ∧
  _app_name (self w') = _app_name (self w) ∧
  _config (self w') = _config (self w) ∧
  (_shutting_down (self w) = true ∨ Shutdown ∈ history →
     shutdown w' = terminate w' ∧
     stopping (loop (env (snd (shutdown w')))) = true ∧
     tasks (loop (env (snd (shutdown w')))) =
       map (λ t, {| coro := coro t;
                    task_state := match task_state t with
                                  | Done => Done
                                  | Pending | CancelRequested =>
                                      CancelRequested
                                  end |})
           (tasks (loop (env w')))) ∧
  (_shutting_down (self w) = false → Shutdown ∉ history →
     fst (shutdown w') = Ok tt ∧
     _shutting_down (self (snd (shutdown w'))) = true ∧
     tasks (loop (env (snd (shutdown w')))) =
       tasks (loop (env w'))
         ++ [{| coro := clean_shutdown_coro; task_state := Pending |}] ∧
     stopping (loop (env (snd (shutdown w'))))
     = stopping (loop (env w')) ∧
     effects (env (snd (shutdown w'))) = effects (env w')).
Proof.
  cbv zeta. split; [apply run_requests_flag|].
  split; [|split; [|split]].
  - induction history as [|r history IH] using rev_ind; [done|].
    rewrite run_requests_snoc serve_self. by destruct r.
  - induction history as [|r history IH] using rev_ind; [done|].
    rewrite run_requests_snoc serve_self. by destruct r.
  - intros Hflag%run_requests_flag.
    rewrite shutdown_again //. split; [done|]. split; [done|].
    apply terminate_tasks.
  - intros Hflag Hnone.
    assert (Hoff : _shutting_down (self (run_requests history w)) = false).
    { destruct (_shutting_down (self (run_requests history w))) eqn:Hf;
        [|done].
      apply run_requests_flag in Hf as [?|?]; [congruence|done]. }
    by rewrite shutdown_first.
Qed.

Lemma only_the_first_shutdown_drains_witness :
  tasks (loop (env (snd (shutdown
    (run_requests
       [Progress id; Shutdown;
        Progress (with_loop (ensure_future (other_coro 3)));
        Drain (Raise CancelledError) id]
       sample_world)))))
  = [ {| coro := other_coro 1; task_state := CancelRequested |};
      {| coro := other_coro 2; task_state := Done |};
      {| coro := clean_shutdown_coro; task_state := CancelRequested |};
      {| coro := other_coro 3; task_state := CancelRequested |} ].
Proof.
  destruct (only_the_first_shutdown_drains
              [Progress id; Shutdown;
               Progress (with_loop (ensure_future (other_coro 3)));
               Drain (Raise CancelledError) id] sample_world)
    as (_ & _ & _ & Hlater & _).
  destruct Hlater as (_ & _ & ->).
  - right. apply list_elem_of_further, list_elem_of_here.
  - reflexivity.
Defined.

(** ** Construction *)

Lemma upper_ascii_idempotent c : upper_ascii (upper_ascii c) = upper_ascii c.
Proof.
  destruct c as [[] [] [] [] [] [] [] []]; vm_compute; reflexivity.
Qed.

Lemma upper_idempotent s : upper (upper s) = upper s.
Proof.
  induction s as [|c s IH]; [done|].
  cbn [upper]. by rewrite upper_ascii_idempotent IH.
Qed.

Lemma upper_length s : String.length (upper s) = String.length s.
Proof. induction s as [|c s IH]; [done|]. cbn. by rewrite IH. Qed.

Lemma upper_ascii_code c :
  nat_of_ascii (upper_ascii c) =
    if (97 <=? nat_of_ascii c) && (nat_of_ascii c <=? 122)
    then nat_of_ascii c - 32 else nat_of_ascii c.
Proof.
  destruct c as [[] [] [] [] [] [] [] []]; vm_compute; reflexivity.
Qed.

Lemma nat_of_ascii_inj a b : nat_of_ascii a = nat_of_ascii b → a = b.
Proof.
  intros Hab. by rewrite -(ascii_nat_embedding a) -(ascii_nat_embedding b) Hab.
Qed.

Lemma same_letter_upper a b :
  same_letter a b = true → upper_ascii a = upper_ascii b.
Proof.
  rewrite /same_letter. intros Hab. apply nat_of_ascii_inj.
  rewrite !upper_ascii_code.
  repeat match goal with
         | |- context [?x <=? ?y] => destruct (Nat.leb_spec x y)
         | H : context [?x =? ?y] |- _ => destruct (Nat.eqb_spec x y)
         | H : context [?x <=? ?y] |- _ => destruct (Nat.leb_spec x y)
         end; simpl in *; try discriminate; lia.
Qed.

Lemma same_letter_upper_ascii a : same_letter a (upper_ascii a) = true.
Proof.
  destruct a as [[] [] [] [] [] [] [] []]; vm_compute; reflexivity.
Qed.

Lemma same_name_upper (s u : string) :
  same_name s u = true → upper s = upper u.
Proof.
  revert u. induction s as [|a s IH]; intros [|b u]; simpl; try done.
  intros [Hab Hsu]%andb_true_iff.
  by rewrite (same_letter_upper a b) // (IH u).
Qed.

Lemma same_name_of_upper s : same_name s (upper s) = true.
Proof.
  induction s as [|a s IH]; [done|].
  cbn [upper same_name]. by rewrite same_letter_upper_ascii IH.
Qed.

Lemma level_names_upper L : L ∈ level_names → upper L = L.
Proof.
  rewrite /level_names !elem_of_cons elem_of_nil.
  intros Hin. repeat destruct Hin as [->|Hin]; [reflexivity..|done].
Qed.

Lemma upper_level_iff s :
  upper s ∈ level_names ↔ ∃ L, L ∈ level_names ∧ same_name s L = true.
Proof.
  split.
  - intros Hin. exists (upper s). split; [done|apply same_name_of_upper].
  - intros (L & HL & Hs). apply same_name_upper in Hs.
    by rewrite Hs level_names_upper.
Qed.

(** X13. The log level is matched without regard to the case of its
    letters.  For level names of ASCII characters: [_init_logging]
    accepts a name exactly when it is one of the eight level names of
    the [logging] module up to the case of its letters; and two names
    that differ only by the case of their letters are both accepted or
    both rejected, and when accepted make the same call to
    [basicConfig]. *)
Theorem log_level_ignores_case others config config' e0 :
  is_ascii (log_level config) = true →
  is_ascii (log_level config') = true →
  lower_case_names others →
  (is_ok (fst (_init_logging others config e0)) = true
   ↔ ∃ L, L ∈ level_names ∧ same_name (log_level config) L = true) ∧
  (same_name (log_level config) (log_level config') = true →
     is_ok (fst (_init_logging others config e0))
     = is_ok (fst (_init_logging others config' e0)) ∧
     snd (_init_logging others config e0)
     = snd (_init_logging others config' e0)).
Proof.
  intros _ _ Hothers. rewrite !_init_logging_eq /=. split.
  - rewrite -upper_level_iff.
    destruct (logging_levels others (upper (log_level config)) Hothers
                (has_lower_upper _)) as [Hyes Hno].
    split.
    + intros Hok. destruct (decide (upper (log_level config) ∈ level_names))
        as [|Hout]; [done|].
      rewrite (Hno Hout) in Hok. discriminate.
    + intros Hin. destruct (Hyes Hin) as [n ->]. done.
  - intros Hsame%same_name_upper. rewrite Hsame.
    by destruct (isinstance_int _).
Qed.

Lemma log_level_ignores_case_witness :
  is_ok (fst (_init_logging logging_sample_others
                {| max_default_executor_threads := 4; exit_max_wait := 300;
                   log_level := "Warning" |} sample_env)) = true ∧
  snd (_init_logging logging_sample_others sample_config sample_env)
  = snd (_init_logging logging_sample_others
           {| max_default_executor_threads := 4; exit_max_wait := 300;
              log_level := "InFo" |} sample_env).
Proof.
  split.
  - destruct (log_level_ignores_case logging_sample_others
                {| max_default_executor_threads := 4; exit_max_wait := 300;
                   log_level := "Warning" |} sample_config sample_env
                eq_refl eq_refl sample_others_lower_case) as [Haccept _].
    apply Haccept. refine (ex_intro _ "WARNING" _).
    split; [|reflexivity].
    apply list_elem_of_further, list_elem_of_further, list_elem_of_further,
      list_elem_of_here.
  - destruct (log_level_ignores_case logging_sample_others sample_config
                {| max_default_executor_threads := 4; exit_max_wait := 300;
                   log_level := "InFo" |} sample_env
                eq_refl eq_refl sample_others_lower_case) as [_ Hsame].
    apply Hsame. reflexivity.
Defined.

(** X14. What a failed construction leaves behind.  When the executor
    cannot be built, the constructor raises that error and has touched
    nothing.  When the executor is built and the log level, a name of
    ASCII characters, is then rejected, the constructor raises the [ValueError] with the loop's
    default executor already replaced by the new one; the signal
    handlers, the tasks and the logging configuration are as they
    were. *)
Theorem failed_construction_leftovers others
    (ThreadPoolExecutor : Z → result Executor) app_name config e0 :
  let started := __init__ others ThreadPoolExecutor app_name config e0 in
  (∀ e, ThreadPoolExecutor (max_default_executor_threads config) = Raise e →
     started = (Raise e, e0)) ∧
  (∀ x, ThreadPoolExecutor (max_default_executor_threads config) = Ok x →
     is_ascii (log_level config) = true →
     lower_case_names others →
     ¬ recognized (log_level config) →
     fst started
     = Raise (ValueError ("Invalid log level: " +:+ log_level config)) ∧
     default_executor (loop (snd started)) = Some x ∧
     signal_handlers (loop (snd started)) = signal_handlers (loop e0) ∧
     tasks (loop (snd started)) = tasks (loop e0) ∧
     stopping (loop (snd started)) = stopping (loop e0) ∧
     effects (snd started) = effects e0).
Proof.
  intros started. subst started. split.
  - intros e He. by rewrite /__init__ /bind He.
  - intros x Hx _ Hothers Hr.
    destruct (logging_levels others (upper (log_level config)) Hothers
                (has_lower_upper _)) as [_ Hno].
    rewrite /__init__ /bind Hx /modify /= !_init_logging_eq /=.
    by rewrite (Hno Hr).
Qed.

Lemma failed_construction_leftovers_witness :
  __init__ logging_sample_others sample_executor "fcr"
    {| max_default_executor_threads := 0; exit_max_wait := 300;
       log_level := "info" |} sample_env
  = (Raise (ValueError "max_workers must be greater than 0"), sample_env) ∧
  default_executor (loop (snd
    (__init__ logging_sample_others sample_executor "fcr"
       {| max_default_executor_threads := 4; exit_max_wait := 300;
          log_level := "verbose" |} sample_env)))
  = Some {| max_workers := 4 |}.
Proof.
  split.
  - apply (failed_construction_leftovers logging_sample_others
             sample_executor "fcr"
             {| max_default_executor_threads := 0; exit_max_wait := 300;
                log_level := "info" |} sample_env).
    reflexivity.
  - destruct (failed_construction_leftovers logging_sample_others
                sample_executor "fcr"
                {| max_default_executor_threads := 4; exit_max_wait := 300;
                   log_level := "verbose" |} sample_env) as [_ Hlevel].
    destruct (Hlevel {| max_workers := 4 |} eq_refl eq_refl
                sample_others_lower_case) as (_ & Hexec & _);
      [|exact Hexec].
    rewrite /recognized. vm_compute. set_solver.
Defined.

(** ** Signals *)

Lemma handler_for_registered sig handlers :
  handler_for sig
    (handlers ++ [(SIGINT, call_shutdown); (SIGTERM, call_shutdown)])
  = Some call_shutdown.
Proof.
  induction handlers as [|[s h] handlers IH].
  - by destruct sig.
  - simpl. by rewrite IH.
Qed.

(** X18. After a construction that succeeded, with a level name of
    ASCII characters, the interrupt and the termination signal both have
    a handler, whatever handlers the loop had before, and the handler is
    [shutdown].  So of any two signals the service receives one right
    after the other, the first starts the drain: the loop holds the
    tasks it held, and the drain task, pending, and is not told to stop;
    and the second terminates: the loop is told to stop and holds the
    same tasks, each one that was not done now with its cancellation
    requested, the drain included. *)
Theorem two_signals_terminate others
    (ThreadPoolExecutor : Z → result Executor) app_name config e0 x
    (sig1 sig2 : Signal) :
  is_ascii (log_level config) = true →
  lower_case_names others →
  ThreadPoolExecutor (max_default_executor_threads config) = Ok x →
  recognized (log_level config) →
  ∃ w w1 w2,
    constructed (__init__ others ThreadPoolExecutor app_name config e0)
    = Some w ∧
    deliver sig1 w = Some (Ok tt, w1) ∧
    deliver sig2 w1 = Some (Ok tt, w2) ∧
    tasks (loop (env w)) = tasks (loop e0) ∧
    _shutting_down (self w1) = true ∧
    stopping (loop (env w1)) = stopping (loop e0) ∧
    tasks (loop (env w1)) =
      tasks (loop e0)
        ++ [{| coro := clean_shutdown_coro; task_state := Pending |}] ∧
    stopping (loop (env w2)) = true ∧
    tasks (loop (env w2)) =
      map (λ t, {| coro := coro t;
                   task_state := match task_state t with
                                 | Done => Done
                                 | Pending | CancelRequested =>
                                     CancelRequested
                                 end |})
          (tasks (loop e0))
        ++ [{| coro := clean_shutdown_coro;
               task_state := CancelRequested |}].
Proof.
  intros _ Hothers Hx Hr.
  destruct (logging_levels others (upper (log_level config)) Hothers
              (has_lower_upper _)) as [Hyes _].
  destruct (Hyes Hr) as [n Hn].
  rewrite /__init__ /bind Hx /modify /= !_init_logging_eq /= Hn /=.
  eexists _, _, _. split; [reflexivity|].
  rewrite /deliver /= -(assoc_L (++)) /= handler_for_registered.
  rewrite shutdown_first //=. split; [reflexivity|].
  rewrite /deliver /= -(assoc_L (++)) /= handler_for_registered.
  rewrite shutdown_again //. split; [reflexivity|].
  split; [done|]. split; [done|]. split; [done|]. split; [done|].
  split; [done|]. by rewrite terminate_tasks /= map_app.
Qed.

Lemma two_signals_terminate_witness :
  ∃ w w1 w2,
    constructed (__init__ logging_sample_others sample_executor "fcr"
                   sample_config sample_env) = Some w ∧
    deliver SIGTERM w = Some (Ok tt, w1) ∧
    deliver SIGINT w1 = Some (Ok tt, w2) ∧
    stopping (loop (env w2)) = true ∧
    tasks (loop (env w2)) =
      [ {| coro := other_coro 1; task_state := CancelRequested |};
        {| coro := other_coro 2; task_state := Done |};
        {| coro := clean_shutdown_coro; task_state := CancelRequested |} ].
Proof.
  destruct (two_signals_terminate logging_sample_others sample_executor
              "fcr" sample_config sample_env {| max_workers := 4 |}
              SIGTERM SIGINT eq_refl sample_others_lower_case eq_refl)
    as (w & w1 & w2 & H0 & H1 & H2 & _ & _ & _ & _ & Hstop & Htasks).
  - rewrite /recognized. vm_compute. set_solver.
  - exists w, w1, w2. rewrite Htasks. by repeat split.
Defined.

(** ** [start] *)

(** X19. [start] always cleans up.  However [run_forever] ends, with a
    return or with an exception, the loop is then run to completion on
    the state [run_forever] left, in which nothing has changed but the
    tasks: each is in its place with its coroutine, every one that was
    not done with its cancellation requested, the done ones as they
    were.  When that run completes, the loop is closed, and [start] ends
    as [run_forever] did, an exception of it being raised only after the
    cleanup.  When that run itself raises, its exception is the one
    [start] raises, and the loop is not closed. *)
Theorem start_always_cleans_up (run_forever_outcome : result unit)
    (while_running : World → World) (gather_outcome : result unit)
    (while_gathering : World → World) (h : Host) :
  let r := start run_forever_outcome while_running
             gather_outcome while_gathering h in
  let left := while_running (world h) in
  (∃ w, world (snd r) = while_gathering w ∧
        self w = self left ∧
        effects (env w) = effects (env left) ∧
        stopping (loop (env w)) = stopping (loop (env left)) ∧
        signal_handlers (loop (env w)) = signal_handlers (loop (env left)) ∧
        default_executor (loop (env w))
        = default_executor (loop (env left)) ∧
        tasks (loop (env w)) =
          map (λ t, {| coro := coro t;
                       task_state := match task_state t with
                                     | Done => Done
                                     | Pending | CancelRequested =>
                                         CancelRequested
                                     end |})
              (tasks (loop (env left)))) ∧
  (gather_outcome = Ok tt →
     fst r = run_forever_outcome ∧ loop_closed (snd r) = true) ∧
  (∀ e, gather_outcome = Raise e →
     fst r = Raise e ∧ loop_closed (snd r) = loop_closed h).
Proof.
  intros r left. subst r left.
  rewrite /start /try_finally /run_forever /run_until_complete_gather
    /bind /modify /=.
  assert (Hmap : ∀ ts, map cancel ts =
            map (λ t, {| coro := coro t;
                         task_state := match task_state t with
                                       | Done => Done
                                       | Pending | CancelRequested =>
                                           CancelRequested
                                       end |}) ts).
  { intros ts. apply map_ext. intros t. apply cancel_spelled_out. }
  destruct gather_outcome as [[]|e]; simpl.
  - split; [|split; [done|by intros ? [=]]].
    eexists. split; [reflexivity|]. simpl. by rewrite Hmap.
  - split; [|split; [done|by intros ? [= <-]]].
    eexists. split; [reflexivity|]. simpl. by rewrite Hmap.
Qed.

Lemma start_always_cleans_up_witness :
  fst (start (Raise CancelledError) id (Ok tt) id sample_host)
  = Raise CancelledError ∧
  loop_closed (snd (start (Raise CancelledError) id (Ok tt) id sample_host))
  = true.
Proof.
  destruct (start_always_cleans_up (Raise CancelledError) id (Ok tt) id
              sample_host) as (_ & Hok & _).
  exact (Hok eq_refl).
Defined.

End LifecycleFacts.
